(** * Notes backend: the persistence and query layer of the notes API

    A shallow embedding of [src/api/models.py], [src/api/db.py] and
    [src/api/notes_router.py].  The SQLite file is a finite map from rowid to
    the remaining columns of table [notes]; a connection is a private view of
    the file that reaches it only on [commit]; every handler is a computation
    over the file and a journal of what was done to it. *)

From Stdlib Require Import ZArith Ascii.
From Stdlib Require String.
From stdpp Require Import gmap strings list sorting.

Local Open Scope Z_scope.

(** ** Pydantic models ([models.py]) *)

Module NoteCreate.
Record t := mk { title : string; content : string }.
End NoteCreate.

(** Both fields are [Optional[str]] with default [None]. *)
Module NoteUpdate.
Record t := mk { title : option string; content : option string }.
End NoteUpdate.

Module NoteOut.
Record t := mk {
  id : Z;
  title : string;
  content : string;
  created_date : string;
  modified_date : string;
  deleted_date : option string
}.
End NoteOut.

Module PaginatedNotes.
Record t := mk {
  total : Z;
  items : list NoteOut.t;
  limit : Z;
  offset : Z
}.
End PaginatedNotes.

(** ** Exceptions and results *)

Inductive Exception :=
| HTTPException (status_code : Z) (detail : string)
    (* raised by the handlers themselves *)
| RequestValidationError (params : list string)
    (* FastAPI's answer when a declared [Query]/[Path] constraint or a
       [Literal] annotation fails; lists the offending parameters *)
| KeyError (key : string)
    (* a dictionary subscript with a missing key *)
| TypeError.
    (* subscripting [None] where a row was expected *)

Inductive Result (A : Type) :=
| Ok (a : A)
| Raise (e : Exception).
Arguments Ok {A} a.
Arguments Raise {A} e.

(** The outcomes the handlers signal. *)
Definition NotFound : Exception := HTTPException 404 "Note not found".
Definition InvalidArgument : Exception :=
  HTTPException 400 "At least one of title/content must be provided".

(** A request turned down as a bad request: the handler's own 400 or the
    framework's validation error. *)
Definition is_invalid_argument (e : Exception) : bool :=
  match e with
  | HTTPException code _ => code =? 400
  | RequestValidationError _ => true
  | _ => false
  end.

(** ** A state and exception monad *)

Definition M (S A : Type) : Type := S → S * Result A.

Global Instance M_ret {S} : MRet (M S) := λ A a s, (s, Ok a).
Global Instance M_bind {S} : MBind (M S) := λ A B k m s,
  match m s with
  | (s', Ok a) => k a s'
  | (s', Raise e) => (s', Raise e)
  end.
Global Instance M_throw {S} : MThrow Exception (M S) := λ A e s, (s, Raise e).

Definition gets {S A} (f : S → A) : M S A := λ s, (s, Ok (f s)).
Definition modify {S} (f : S → S) : M S unit := λ s, (f s, Ok tt).

(** ** The database ([db.py] and the schema of table [notes]) *)

(** The columns of a row of [notes] other than its rowid [id]. *)
Record Columns := {
  col_title : string;
  col_content : string;
  col_created_date : string;
  col_modified_date : string;
  col_deleted_date : option string
}.

(** A [sqlite3.Row] of
    [SELECT id, title, content, created_date, modified_date, deleted_date]. *)
Definition Row : Type := Z * Columns.

(** Modelled from the spec: the schema of table [notes] is created outside
    the source files at hand; section 6 gives it as
    [id INTEGER PRIMARY KEY AUTOINCREMENT] followed by the five columns above.
    The primary key makes the table a map from [id] to the other columns, and
    AUTOINCREMENT keeps in [sqlite_sequence] the largest rowid ever handed
    out. *)
Record Database := {
  notes : gmap Z Columns;
  sqlite_sequence : Z
}.

Inductive Statement :=
| PragmaForeignKeys
| SelectCountActive
| SelectPage
| SelectActiveById (note_id : Z)
| SelectById (note_id : Z)
| InsertNote
| UpdateTitleContent (note_id : Z)
| UpdateDeleted (note_id : Z).

Inductive Event :=
| Connected
| Executed (stmt : Statement)
| Committed
| Closed.

(** What a handler runs against: the database file and the journal of what
    has been done to it. *)
Record World := {
  database : Database;
  journal : list Event
}.

(** An open connection: [committed] is the file, [view] is what this
    connection sees, its own uncommitted writes included. *)
Record Connection := {
  committed : Database;
  view : Database;
  log : list Event
}.

Definition record (ev : Event) : M Connection unit :=
  modify (λ c, {| committed := committed c; view := view c;
                  log := log c ++ [ev] |}).

(** [conn.execute] of a read: evaluated on the connection's view. *)
Definition query {A} (stmt : Statement) (f : Database → A) : M Connection A :=
  record (Executed stmt);; gets (λ c, f (view c)).

(** [conn.execute] of a write: changes the view only. *)
Definition execute {A} (stmt : Statement) (f : Database → Database * A)
  : M Connection A :=
  record (Executed stmt);;
  r ← gets (λ c, f (view c));
  modify (λ c, {| committed := committed c; view := r.1; log := log c |});;
  mret (r.2).

(** [conn.commit()] *)
Definition commit : M Connection unit :=
  record Committed;;
  modify (λ c, {| committed := view c; view := view c; log := log c |}).

(** [_connect_sqlite] *)
Definition _connect_sqlite (w : World) : Connection :=
  {| committed := database w; view := database w;
     log := journal w ++ [Connected; Executed PragmaForeignKeys] |}.

(** [with sqlite_connection() as conn: body].  No auto-commit: closing drops
    whatever the view holds beyond the last commit, on every exit path. *)
Definition sqlite_connection {A} (body : M Connection A) : M World A :=
  λ w, match body (_connect_sqlite w) with
       | (c, r) => ({| database := committed c; journal := log c ++ [Closed] |}, r)
       end.

(** ** The SQL statements of [notes_router.py] *)

Global Instance Columns_eq_dec : EqDecision Columns.
Proof. solve_decision. Defined.

(** [deleted_date IS NULL] *)
Definition active (row : Row) : Prop := col_deleted_date row.2 = None.

Global Instance active_dec row : Decision (active row).
Proof. unfold active. apply _. Defined.

(** [FROM notes WHERE deleted_date IS NULL] *)
Definition active_rows (db : Database) : list Row :=
  filter active (map_to_list (notes db)).

(** [SELECT COUNT( * ) AS c FROM notes WHERE deleted_date IS NULL] *)
Definition select_count_active (db : Database) : Z :=
  Z.of_nat (length (active_rows db)).

(** The columns that [_SORT_FIELDS] can splice into [ORDER BY], and the two
    directions. *)
Inductive Column := ColCreatedDate | ColModifiedDate | ColTitle | ColId.
Inductive Direction := ASC | DESC.

(** Comparison of two rows on one column: integers for [id], byte-wise text
    comparison (SQLite's BINARY collation) for the TEXT columns. *)
Definition compare_column (col : Column) (a b : Row) : comparison :=
  match col with
  | ColCreatedDate => String.compare (col_created_date a.2) (col_created_date b.2)
  | ColModifiedDate => String.compare (col_modified_date a.2) (col_modified_date b.2)
  | ColTitle => String.compare (col_title a.2) (col_title b.2)
  | ColId => Z.compare a.1 b.1
  end.

Definition compare_directed (col : Column) (dir : Direction) (a b : Row)
  : comparison :=
  match dir with
  | ASC => compare_column col a b
  | DESC => compare_column col b a
  end.

(** [ORDER BY col dir]: [a] may come before [b].  Rows with equal keys are
    kept in rowid order, the table's natural order. *)
Definition order_by (col : Column) (dir : Direction) (a b : Row) : Prop :=
  match compare_directed col dir a b with
  | Lt => True
  | Eq => a.1 ≤ b.1
  | Gt => False
  end.

Global Instance order_by_dec col dir a b : Decision (order_by col dir a b).
Proof. unfold order_by. destruct (compare_directed col dir a b); apply _. Defined.

(** [LIMIT ? OFFSET ?]: a negative limit is no limit, a negative offset is
    no offset. *)
Definition limit_offset {A} (limit offset : Z) (l : list A) : list A :=
  let rest := drop (Z.to_nat offset) l in
  if limit <? 0 then rest else take (Z.to_nat limit) rest.

(** [SELECT ... FROM notes WHERE deleted_date IS NULL
     ORDER BY col dir LIMIT ? OFFSET ?] *)
Definition select_page (col : Column) (dir : Direction) (limit offset : Z)
    (db : Database) : list Row :=
  limit_offset limit offset (merge_sort (order_by col dir) (active_rows db)).

(** [SELECT ... FROM notes WHERE id = ? AND deleted_date IS NULL], [fetchone] *)
Definition select_active_by_id (note_id : Z) (db : Database) : option Row :=
  c ← notes db !! note_id;
  if decide (active (note_id, c)) then Some (note_id, c) else None.

(** [SELECT ... FROM notes WHERE id = ?], [fetchone] *)
Definition select_by_id (note_id : Z) (db : Database) : option Row :=
  c ← notes db !! note_id; Some (note_id, c).

Definition max_rowid (t : gmap Z Columns) : Z :=
  foldr Z.max 0 (map_to_list t).*1.

(** [INSERT INTO notes (title, content, created_date, modified_date,
     deleted_date) VALUES (?, ?, ?, ?, NULL)]; the second component is
    [lastrowid].  AUTOINCREMENT: one more than the largest rowid the table
    has or ever had. *)
Definition insert_note (title content created modified : string)
    (db : Database) : Database * Z :=
  let rowid := Z.max (sqlite_sequence db) (max_rowid (notes db)) + 1 in
  ({| notes := <[rowid := {| col_title := title; col_content := content;
                             col_created_date := created;
                             col_modified_date := modified;
                             col_deleted_date := None |}]> (notes db);
      sqlite_sequence := rowid |}, rowid).

(** [UPDATE notes SET title = ?, content = ?, modified_date = ? WHERE id = ?] *)
Definition update_title_content (new_title new_content now : string)
    (note_id : Z) (db : Database) : Database * unit :=
  ({| notes := alter (λ c, {| col_title := new_title;
                              col_content := new_content;
                              col_created_date := col_created_date c;
                              col_modified_date := now;
                              col_deleted_date := col_deleted_date c |})
                     note_id (notes db);
      sqlite_sequence := sqlite_sequence db |}, tt).

(** [UPDATE notes SET deleted_date = ?, modified_date = ? WHERE id = ?] *)
Definition update_deleted (deleted modified : string)
    (note_id : Z) (db : Database) : Database * unit :=
  ({| notes := alter (λ c, {| col_title := col_title c;
                              col_content := col_content c;
                              col_created_date := col_created_date c;
                              col_modified_date := modified;
                              col_deleted_date := Some deleted |})
                     note_id (notes db);
      sqlite_sequence := sqlite_sequence db |}, tt).

(** ** The handlers ([notes_router.py]) *)

Definition _SORT_FIELDS : gmap string Column :=
  list_to_map [("created_date", ColCreatedDate);
               ("modified_date", ColModifiedDate);
               ("title", ColTitle);
               ("id", ColId)].

(** [d[key]] *)
Definition subscript {S V} (d : gmap string V) (key : string) : M S V :=
  match d !! key with
  | Some v => mret v
  | None => mthrow (KeyError key)
  end.

(** [row[...]] needs a row: on [None] Python raises [TypeError]. *)
Definition subscriptable {S} (row : option Row) : M S Row :=
  match row with
  | Some r => mret r
  | None => mthrow TypeError
  end.

Definition ascii_lower (c : ascii) : ascii :=
  let n := N_of_ascii c in
  if ((65 <=? n) && (n <=? 90))%N then ascii_of_N (n + 32) else c.

(** [str.lower], on the bytes of the string. *)
Fixpoint lower (s : string) : string :=
  match s with
  | EmptyString => EmptyString
  | String c s' => String (ascii_lower c) (lower s')
  end.

Definition _row_to_note_out (row : Row) : NoteOut.t :=
  {| NoteOut.id := row.1;
     NoteOut.title := col_title row.2;
     NoteOut.content := col_content row.2;
     NoteOut.created_date := col_created_date row.2;
     NoteOut.modified_date := col_modified_date row.2;
     NoteOut.deleted_date := col_deleted_date row.2 |}.

Definition list_notes (limit offset : Z) (sort_by sort_order : string)
  : M World PaginatedNotes.t :=
  sort_col ← subscript _SORT_FIELDS sort_by;
  let sort_dir := if decide (lower sort_order = "asc") then ASC else DESC in
  fetched ← sqlite_connection (
    total ← query SelectCountActive select_count_active;
    rows ← query SelectPage (select_page sort_col sort_dir limit offset);
    mret (total, rows));
  mret {| PaginatedNotes.total := fetched.1;
          PaginatedNotes.items := _row_to_note_out <$> fetched.2;
          PaginatedNotes.limit := limit;
          PaginatedNotes.offset := offset |}.

Definition get_note (note_id : Z) : M World NoteOut.t :=
  row ← sqlite_connection (
    query (SelectActiveById note_id) (select_active_by_id note_id));
  if decide (row = None) then mthrow NotFound
  else r ← subscriptable row; mret (_row_to_note_out r).

(** [now] is the reading [utc_now_iso()] gives when the handler calls it. *)
Definition create_note (now : string) (payload : NoteCreate.t)
  : M World NoteOut.t :=
  row ← sqlite_connection (
    note_id ← execute InsertNote
      (insert_note (NoteCreate.title payload) (NoteCreate.content payload)
                   now now);
    commit;;
    query (SelectById note_id) (select_by_id note_id));
  r ← subscriptable row; mret (_row_to_note_out r).

Definition update_note (now : string) (payload : NoteUpdate.t) (note_id : Z)
  : M World NoteOut.t :=
  if decide (NoteUpdate.title payload = None ∧ NoteUpdate.content payload = None)
  then mthrow InvalidArgument
  else
    row ← sqlite_connection (
      existing ← query (SelectActiveById note_id) (select_active_by_id note_id);
      if decide (existing = None) then mthrow NotFound
      else
        e ← subscriptable existing;
        let new_title :=
          match NoteUpdate.title payload with
          | Some t => t
          | None => col_title e.2
          end in
        let new_content :=
          match NoteUpdate.content payload with
          | Some c => c
          | None => col_content e.2
          end in
        execute (UpdateTitleContent note_id)
          (update_title_content new_title new_content now note_id);;
        commit;;
        query (SelectById note_id) (select_by_id note_id));
    r ← subscriptable row; mret (_row_to_note_out r).

Definition delete_note (now : string) (note_id : Z) : M World NoteOut.t :=
  updated ← sqlite_connection (
    row ← query (SelectActiveById note_id) (select_active_by_id note_id);
    if decide (row = None) then mthrow NotFound
    else
      execute (UpdateDeleted note_id) (update_deleted now now note_id);;
      commit;;
      query (SelectById note_id) (select_by_id note_id));
  r ← subscriptable updated; mret (_row_to_note_out r).

(** ** The declared parameters of the routes

    FastAPI checks the declarations in a handler's signature before it calls
    the handler: [Query(default, ge=, le=)], [Path(..., ge=)] and [Literal].
    Every failing parameter is reported in one [RequestValidationError]. *)

Definition in_range (ge le : option Z) (v : Z) : bool :=
  match ge with Some lo => lo <=? v | None => true end &&
  match le with Some hi => v <=? hi | None => true end.

Definition check (name : string) (ok : bool) : list string :=
  if ok then [] else [name].

(** The query string of [GET /notes]; [None] is a parameter left out. *)
Record ListQuery := {
  q_limit : option Z;
  q_offset : option Z;
  q_sort_by : option string;
  q_sort_order : option string
}.

Definition GET_notes (q : ListQuery) : M World PaginatedNotes.t :=
  let limit := default 20 (q_limit q) in
  let offset := default 0 (q_offset q) in
  let sort_by := default "modified_date" (q_sort_by q) in
  let sort_order := default "desc" (q_sort_order q) in
  let errors :=
    check "limit" (in_range (Some 1) (Some 200) limit) ++
    check "offset" (in_range (Some 0) None offset) ++
    check "sort_by"
      (bool_decide (sort_by ∈ ["created_date"; "modified_date"; "title"; "id"])) ++
    check "sort_order" (bool_decide (sort_order ∈ ["asc"; "desc"])) in
  if decide (errors = []) then list_notes limit offset sort_by sort_order
  else mthrow (RequestValidationError errors).

Definition GET_note (note_id : Z) : M World NoteOut.t :=
  let errors := check "note_id" (in_range (Some 1) None note_id) in
  if decide (errors = []) then get_note note_id
  else mthrow (RequestValidationError errors).

Definition PUT_note (now : string) (payload : NoteUpdate.t) (note_id : Z)
  : M World NoteOut.t :=
  let errors := check "note_id" (in_range (Some 1) None note_id) in
  if decide (errors = []) then update_note now payload note_id
  else mthrow (RequestValidationError errors).

Definition DELETE_note (now : string) (note_id : Z) : M World NoteOut.t :=
  let errors := check "note_id" (in_range (Some 1) None note_id) in
  if decide (errors = []) then delete_note now note_id
  else mthrow (RequestValidationError errors).

(** ** The clock ([db.py]) *)

(** A [datetime] in UTC, the value of [datetime.now(timezone.utc)].  The
    type keeps [year] in 1..9999, [month] in 1..12, [day] in 1..31, [hour]
    in 0..23, [minute] and [second] in 0..59 and [microsecond] in
    0..999999. *)
Record datetime := {
  year : Z;
  month : Z;
  day : Z;
  hour : Z;
  minute : Z;
  second : Z;
  microsecond : Z
}.

Definition valid_datetime (dt : datetime) : Prop :=
  1 ≤ year dt ≤ 9999 ∧ 1 ≤ month dt ≤ 12 ∧ 1 ≤ day dt ≤ 31 ∧
  0 ≤ hour dt ≤ 23 ∧ 0 ≤ minute dt ≤ 59 ∧ 0 ≤ second dt ≤ 59 ∧
  0 ≤ microsecond dt ≤ 999999.

(** [dt.replace(microsecond=us)] *)
Definition replace_microsecond (us : Z) (dt : datetime) : datetime :=
  {| year := year dt; month := month dt; day := day dt; hour := hour dt;
     minute := minute dt; second := second dt; microsecond := us |}.

Definition digit (d : Z) : ascii := ascii_of_N (48 + Z.to_N d).

(** [width] decimal digits of [z], zeros in front: ["%0<width>d" % z] for a
    [z] of at most [width] digits. *)
Fixpoint zero_padded (width : nat) (z : Z) : string :=
  match width with
  | O => ""
  | S w => zero_padded w (z / 10) +:+ String (digit (z mod 10)) ""
  end.

(** [dt.isoformat()] of a datetime in UTC: the fraction of a second is
    written only when it is not zero, the offset is always [+00:00]. *)
Definition isoformat (dt : datetime) : string :=
  zero_padded 4 (year dt) +:+ "-" +:+ zero_padded 2 (month dt) +:+ "-" +:+
  zero_padded 2 (day dt) +:+ "T" +:+ zero_padded 2 (hour dt) +:+ ":" +:+
  zero_padded 2 (minute dt) +:+ ":" +:+ zero_padded 2 (second dt) +:+
  (if microsecond dt =? 0 then "" else "." +:+ zero_padded 6 (microsecond dt))
  +:+ "+00:00".

(** [utc_now_iso], given what [datetime.now(timezone.utc)] reads. *)
Definition utc_now_iso (clock : datetime) : string :=
  isoformat (replace_microsecond 0 clock).

(** Comparison of two datetimes in UTC: field by field, the year first. *)
Definition datetime_compare (a b : datetime) : comparison :=
  foldr (λ c rest, match c with Eq => rest | _ => c end) Eq
    [year a ?= year b; month a ?= month b; day a ?= day b;
     hour a ?= hour b; minute a ?= minute b; second a ?= second b;
     microsecond a ?= microsecond b].

(** ** The database path ([db.py]) *)

(** A Python [str], as its code points. *)
Definition str : Type := list N.

(** A literal of the source, all ASCII. *)
Definition literal (s : string) : str :=
  N_of_ascii <$> String.list_ascii_of_string s.

(** [str.isspace] of one character; it is also what [\s] matches. *)
Definition isspace (c : N) : bool :=
  ((0x09 <=? c) && (c <=? 0x0D) || (0x1C <=? c) && (c <=? 0x20) ||
   (c =? 0x85) || (c =? 0xA0) || (c =? 0x1680) ||
   (0x2000 <=? c) && (c <=? 0x200A) ||
   (c =? 0x2028) || (c =? 0x2029) || (c =? 0x202F) || (c =? 0x205F) ||
   (c =? 0x3000))%N.

Definition newline : N := 0x0A.

Fixpoint lstrip (s : str) : str :=
  match s with
  | c :: s' => if isspace c then lstrip s' else s
  | [] => []
  end.

(** [s.strip()] *)
Definition strip (s : str) : str := reverse (lstrip (reverse (lstrip s))).

(** The pieces the pattern of [_parse_db_path_from_connection_file] is made
    of, with the meaning [re] gives them under [re.MULTILINE]. *)
Inductive CharClass :=
| Whitespace              (* [\s] *)
| AnyButNewline           (* [.] *)
| Char (c : N).           (* a literal character *)

Definition matches (cls : CharClass) (c : N) : bool :=
  match cls with
  | Whitespace => isspace c
  | AnyButNewline => negb (c =? newline)%N
  | Char c' => (c =? c')%N
  end.

Inductive Item :=
| LineStart                      (* [^] *)
| LineEnd                        (* [$] *)
| One (cls : CharClass)          (* one character *)
| GreedyStar (cls : CharClass)   (* [cls*]: as many as possible first *)
| LazyPlusGroup (cls : CharClass). (* [(cls+?)]: as few as possible first,
                                      captured as group 1 *)

(** [^]: at the start of the text or right after a newline; [prev] is the
    character before the position. *)
Definition at_line_start (prev : option N) : bool :=
  match prev with
  | None => true
  | Some c => (c =? newline)%N
  end.

(** [$]: at the end of the text or right before a newline. *)
Definition at_line_end (rest : str) : bool :=
  match rest with
  | [] => true
  | c :: _ => (c =? newline)%N
  end.

(** Backtracking, in the order [re] tries things: [k] is the rest of the
    pattern, and the first way that lets [k] succeed wins. *)
Fixpoint greedy_star (cls : CharClass) (k : option N → str → option str)
    (prev : option N) (rest : str) : option str :=
  match rest with
  | c :: rest' =>
      if matches cls c then
        match greedy_star cls k (Some c) rest' with
        | Some g => Some g
        | None => k prev rest
        end
      else k prev rest
  | [] => k prev rest
  end.

Fixpoint lazy_plus (cls : CharClass) (k : str → option N → str → option str)
    (group : str) (rest : str) : option str :=
  match rest with
  | c :: rest' =>
      if matches cls c then
        match k (group ++ [c]) (Some c) rest' with
        | Some g => Some g
        | None => lazy_plus cls k (group ++ [c]) rest'
        end
      else None
  | [] => None
  end.

(** A match of [items] that starts right here; the result is group 1. *)
Fixpoint match_here (items : list Item) (group : str) (prev : option N)
    (rest : str) : option str :=
  match items with
  | [] => Some group
  | LineStart :: items' =>
      if at_line_start prev then match_here items' group prev rest else None
  | LineEnd :: items' =>
      if at_line_end rest then match_here items' group prev rest else None
  | One cls :: items' =>
      match rest with
      | c :: rest' =>
          if matches cls c then match_here items' group (Some c) rest'
          else None
      | [] => None
      end
  | GreedyStar cls :: items' =>
      greedy_star cls (match_here items' group) prev rest
  | LazyPlusGroup cls :: items' =>
      lazy_plus cls (match_here items') [] rest
  end.

(** [re.search]: the first position, from the left, where a match starts. *)
Fixpoint search (items : list Item) (prev : option N) (rest : str)
  : option str :=
  match match_here items [] prev rest with
  | Some g => Some g
  | None =>
      match rest with
      | c :: rest' => search items (Some c) rest'
      | [] => None
      end
  end.

(** The character before the position reached after reading [cs]. *)
Definition prev_after (prev : option N) (cs : str) : option N :=
  match last cs with
  | Some c => Some c
  | None => prev
  end.

(** [r"^\s*#\s*File path:\s*(.+?)\s*$"] *)
Definition file_path_pattern : list Item :=
  [LineStart; GreedyStar Whitespace; One (Char 0x23); GreedyStar Whitespace]
  ++ (One ∘ Char <$> literal "File path:") ++
  [GreedyStar Whitespace; LazyPlusGroup AnyButNewline; GreedyStar Whitespace;
   LineEnd].

(** [_parse_db_path_from_connection_file]: [m.group(1).strip()], or [None]
    when nothing matches. *)
Definition _parse_db_path_from_connection_file (text : str) : option str :=
  strip <$> search file_path_pattern None text.

(** What [get_db_path] finds around it: where the module file is (the parts
    of [Path(__file__).resolve()] below the root), the files that exist
    (with their text, or [None] for one that [read_text] cannot read or
    decode), and the process environment. *)
Record Environment := {
  module_file : list string;
  files : gmap (list string) (option str);
  environ : gmap string str
}.

Inductive StartupError := IndexError | RuntimeError.

Inductive PathResult :=
| DbPath (path : str)
| Raises (e : StartupError).

(** [path.parents[n]]: the path without its last [n + 1] parts; there is no
    such parent when the path has no more than [n] parts. *)
Definition parents (n : nat) (path : list string) : option (list string) :=
  if decide (n < length path)%nat
  then Some (take (length path - S n) path)
  else None.

Definition _repo_root_from_this_file (env : Environment)
  : option (list string) :=
  parents 3 (module_file env).

(** [if s:] on a [str] *)
Definition truthy (s : str) : bool := negb (bool_decide (s = [])).

(** What the [if connection_file.exists(): try: ... except Exception: pass]
    block returns, if it returns. *)
Definition path_from_connection_file (env : Environment)
    (connection_file : list string) : option str :=
  match files env !! connection_file with
  | Some (Some text) =>
      match _parse_db_path_from_connection_file text with
      | Some parsed => if truthy parsed then Some parsed else None
      | None => None
      end
  | Some None => None
  | None => None
  end.

Definition get_db_path (env : Environment) : PathResult :=
  match _repo_root_from_this_file env with
  | None => Raises IndexError
  | Some repo_root =>
      let connection_file := repo_root ++ ["database"; "db_connection.txt"] in
      match path_from_connection_file env connection_file with
      | Some parsed => DbPath parsed
      | None =>
          match environ env !! "SQLITE_DB" with
          | Some env_path =>
              if truthy env_path then DbPath env_path
              else Raises RuntimeError
          | None => Raises RuntimeError
          end
      end
  end.

(** ** Sequences of requests *)

Inductive Request :=
| List (limit offset : Z) (sort_by sort_order : string)
| Get (note_id : Z)
| Create (payload : NoteCreate.t)
| Update (payload : NoteUpdate.t) (note_id : Z)
| SoftDelete (note_id : Z).

(** One request, served when the clock reads [now]; the response is dropped
    and the world it leaves is kept. *)
Definition serve (now : string) (r : Request) (w : World) : World :=
  match r with
  | List limit offset sort_by sort_order =>
      (list_notes limit offset sort_by sort_order w).1
  | Get note_id => (get_note note_id w).1
  | Create payload => (create_note now payload w).1
  | Update payload note_id => (update_note now payload note_id w).1
  | SoftDelete note_id => (delete_note now note_id w).1
  end.

(** A trace pairs each request with the clock reading it is served at. *)
Definition run (trace : list (string * Request)) (w : World) : World :=
  foldl (λ w' step, serve step.1 step.2 w') w trace.

Definition empty_world : World :=
  {| database := {| notes := ∅; sqlite_sequence := 0 |}; journal := [] |}.

(** Timestamps are ISO-8601 text in one fixed format, compared as SQLite
    compares TEXT: byte by byte. *)
Definition text_le (s t : string) : Prop := String.compare s t ≠ Gt.

Global Instance text_le_dec s t : Decision (text_le s t).
Proof. unfold text_le. apply _. Defined.

(** The clock never goes back between the requests of a trace. *)
Definition clock_non_decreasing (trace : list (string * Request)) : Prop :=
  Sorted text_le trace.*1.

(** The note [note_id] is stored and not soft-deleted. *)
Definition is_active (db : Database) (note_id : Z) : Prop :=
  ∃ c, notes db !! note_id = Some c ∧ col_deleted_date c = None.

(** No note has this id, or the one that has it is soft-deleted. *)
Definition absent_or_deleted (db : Database) (note_id : Z) : Prop :=
  notes db !! note_id = None ∨
  ∃ c d, notes db !! note_id = Some c ∧ col_deleted_date c = Some d.

(** What [update_note] leaves in the row it finds as [c]. *)
Definition merged (now : string) (payload : NoteUpdate.t) (c : Columns)
  : Columns :=
  {| col_title := default (col_title c) (NoteUpdate.title payload);
     col_content := default (col_content c) (NoteUpdate.content payload);
     col_created_date := col_created_date c;
     col_modified_date := now;
     col_deleted_date := col_deleted_date c |}.

(** What [delete_note] leaves in the row it finds as [c]. *)
Definition soft_deleted (now : string) (c : Columns) : Columns :=
  {| col_title := col_title c;
     col_content := col_content c;
     col_created_date := col_created_date c;
     col_modified_date := now;
     col_deleted_date := Some now |}.

(** What one request can do to the database when the clock reads [now]. *)
Inductive transition (now : string) (db : Database) : Database → Prop :=
| transition_none :
    transition now db db
| transition_create title content :
    transition now db (insert_note title content now now db).1
| transition_update payload note_id c :
    notes db !! note_id = Some c → col_deleted_date c = None →
    transition now db
      {| notes := <[note_id := merged now payload c]> (notes db);
         sqlite_sequence := sqlite_sequence db |}
| transition_delete note_id c :
    notes db !! note_id = Some c → col_deleted_date c = None →
    transition now db
      {| notes := <[note_id := soft_deleted now c]> (notes db);
         sqlite_sequence := sqlite_sequence db |}.

(** Every stored note was created no later than it was last modified, and
    no later than the clock reading [t]. *)
Definition dates_ordered (t : string) (db : Database) : Prop :=
  ∀ note_id c, notes db !! note_id = Some c →
    text_le (col_created_date c) (col_modified_date c) ∧
    text_le (col_created_date c) t.

(** The key a listing is ordered by, and its order in direction [dir]. *)
Definition key_le (col : Column) (dir : Direction) (a b : NoteOut.t) : Prop :=
  let le x y :=
    match col with
    | ColCreatedDate => text_le (NoteOut.created_date x) (NoteOut.created_date y)
    | ColModifiedDate => text_le (NoteOut.modified_date x) (NoteOut.modified_date y)
    | ColTitle => text_le (NoteOut.title x) (NoteOut.title y)
    | ColId => NoteOut.id x ≤ NoteOut.id y
    end in
  match dir with
  | ASC => le a b
  | DESC => le b a
  end.

(** ** Reading the journal *)

Definition is_write (stmt : Statement) : bool :=
  match stmt with
  | InsertNote | UpdateTitleContent _ | UpdateDeleted _ => true
  | _ => false
  end.

(** Every write in [evs] is followed at once by a commit. *)
Fixpoint writes_committed (evs : list Event) : bool :=
  match evs with
  | [] => true
  | Executed stmt :: rest =>
      (if is_write stmt
       then match rest with Committed :: _ => true | _ => false end
       else true) && writes_committed rest
  | _ :: rest => writes_committed rest
  end.

(** One connection from opening to closing, with every write committed. *)
Definition session (evs : list Event) : Prop :=
  ∃ body, evs = [Connected; Executed PragmaForeignKeys] ++ body ++ [Closed] ∧
          (Connected ∉ body) ∧ (Closed ∉ body) ∧
          writes_committed body = true.

Definition reads_only (evs : list Event) : Prop :=
  ∀ stmt, Executed stmt ∈ evs → is_write stmt = false.

(** What a request adds to the journal between [w] and [w']: nothing, or one
    session; and without a write the database is as it was. *)
Definition well_journaled (w w' : World) : Prop :=
  ∃ evs, journal w' = journal w ++ evs ∧
         (evs = [] ∨ session evs) ∧
         (reads_only evs → database w' = database w).

(** ** Reading a response *)

(** The notes of a listing; none when the listing failed. *)
Definition items_of (r : Result PaginatedNotes.t) : list NoteOut.t :=
  match r with
  | Ok page => PaginatedNotes.items page
  | Raise _ => []
  end.

(** ** Timestamps along a trace *)

(** Every stored note was created no later than it was last modified, was
    last modified no later than the clock reading [t], and, once
    soft-deleted, has its [deleted_date] equal to its [modified_date]. *)
Definition timestamps_consistent (t : string) (db : Database) : Prop :=
  ∀ note_id c, notes db !! note_id = Some c →
    text_le (col_created_date c) (col_modified_date c) ∧
    text_le (col_modified_date c) t ∧
    ∀ d, col_deleted_date c = Some d → d = col_modified_date c.

(** Requests paired with what the clock read, before [utc_now_iso] turns
    the reading into text. *)
Definition stamped (requests : list (datetime * Request))
  : list (string * Request) :=
  (λ step, (utc_now_iso step.1, step.2)) <$> requests.

Definition datetime_le (a b : datetime) : Prop := datetime_compare a b ≠ Gt.

(** The readings are valid datetimes and never go back. *)
Definition chronological (requests : list (datetime * Request)) : Prop :=
  Forall valid_datetime requests.*1 ∧ Sorted datetime_le requests.*1.

(** ** A sample run *)

Definition three_notes : World :=
  run [("2026-01-01T09:00:00+00:00", Create (NoteCreate.mk "b" "first"));
       ("2026-01-01T09:00:05+00:00", Create (NoteCreate.mk "a" "second"));
       ("2026-01-01T09:00:09+00:00", Create (NoteCreate.mk "c" "third"))]
      empty_world.

Definition one_deleted : World :=
  run [("2026-01-02T10:30:00+00:00", SoftDelete 1)] three_notes.

(** A connection file as the database container writes it, and the
    environment of a backend checked out under [/home/app]. *)
Definition sample_connection_file : str :=
  literal "# SQLite connection methods:" ++ [newline] ++
  literal "# Python: sqlite3.connect('myapp.db')" ++ [newline] ++
  literal "# File path: /home/app/database/myapp.db" ++ [newline].

Definition sample_environment : Environment :=
  {| module_file := ["home"; "app"; "notes_backend"; "src"; "api"; "db.py"];
     files := {[ ["home"; "app"; "database"; "db_connection.txt"] :=
                 Some sample_connection_file ]};
     environ := {[ "SQLITE_DB" := literal "/tmp/other.db" ]} |}.

(** * Properties *)

(** ** Byte-wise order on text *)

Lemma ascii_compare_refl (a : ascii) : Ascii.compare a a = Eq.
Proof. unfold Ascii.compare. apply N.compare_refl. Qed.

Lemma ascii_compare_lt_trans (a b c : ascii) :
  Ascii.compare a b = Lt → Ascii.compare b c = Lt → Ascii.compare a c = Lt.
Proof.
  unfold Ascii.compare. rewrite !N.compare_lt_iff. apply N.lt_trans.
Qed.

Lemma string_compare_refl (s : string) : String.compare s s = Eq.
Proof.
  induction s as [|a s IH]; simpl; [done|]. by rewrite ascii_compare_refl.
Qed.

Lemma string_compare_lt_trans (s t u : string) :
  String.compare s t = Lt → String.compare t u = Lt → String.compare s u = Lt.
Proof.
  revert t u. induction s as [|a s IH]; intros [|b t] [|c u]; simpl; try done.
  destruct (Ascii.compare a b) eqn:Hab; try done;
    destruct (Ascii.compare b c) eqn:Hbc; try done; intros Hst Htu.
  - apply Ascii.compare_eq_iff in Hab as ->. rewrite Hbc. eauto.
  - apply Ascii.compare_eq_iff in Hab as ->. by rewrite Hbc.
  - apply Ascii.compare_eq_iff in Hbc as <-. by rewrite Hab.
  - by rewrite (ascii_compare_lt_trans a b c).
Qed.

Lemma string_compare_gt_lt (s t : string) :
  String.compare s t = Gt ↔ String.compare t s = Lt.
Proof.
  rewrite (String.compare_antisym t s).
  destruct (String.compare s t); simpl; split; congruence.
Qed.

Global Instance text_le_refl : Reflexive text_le.
Proof. intros s. unfold text_le. by rewrite string_compare_refl. Qed.

Global Instance text_le_trans : Transitive text_le.
Proof.
  intros s t u. unfold text_le. intros Hst Htu Hsu.
  destruct (String.compare s t) eqn:Est; [| |done].
  - apply String.compare_eq_iff in Est as ->. done.
  - destruct (String.compare t u) eqn:Etu; [| |done].
    + apply String.compare_eq_iff in Etu as ->. congruence.
    + rewrite (string_compare_lt_trans s t u) in Hsu; done.
Qed.

Global Instance text_le_total : Total text_le.
Proof.
  intros s t. unfold text_le. rewrite (String.compare_antisym t s).
  destruct (String.compare s t); simpl; auto.
Qed.

(** ** [ORDER BY] is a total order on rows *)

Lemma compare_column_antisym col a b :
  compare_column col b a = CompOpp (compare_column col a b).
Proof.
  destruct col; simpl; auto using String.compare_antisym, Z.compare_antisym.
Qed.

Lemma compare_column_lt_trans col a b c :
  compare_column col a b = Lt → compare_column col b c = Lt →
  compare_column col a c = Lt.
Proof.
  destruct col; simpl; try apply string_compare_lt_trans.
  rewrite !Z.compare_lt_iff. lia.
Qed.

Lemma compare_column_eq_l col a b c :
  compare_column col a b = Eq → compare_column col a c = compare_column col b c.
Proof.
  destruct col; simpl;
    try (by intros ->%String.compare_eq_iff); by intros ->%Z.compare_eq.
Qed.

Lemma compare_column_eq_r col a b c :
  compare_column col b c = Eq → compare_column col a b = compare_column col a c.
Proof.
  destruct col; simpl;
    try (by intros ->%String.compare_eq_iff); by intros ->%Z.compare_eq.
Qed.

Lemma compare_directed_antisym col dir a b :
  compare_directed col dir b a = CompOpp (compare_directed col dir a b).
Proof. destruct dir; apply compare_column_antisym. Qed.

Lemma compare_directed_lt_trans col dir a b c :
  compare_directed col dir a b = Lt → compare_directed col dir b c = Lt →
  compare_directed col dir a c = Lt.
Proof. destruct dir; simpl; eauto using compare_column_lt_trans. Qed.

Lemma compare_directed_eq_l col dir a b c :
  compare_directed col dir a b = Eq →
  compare_directed col dir a c = compare_directed col dir b c.
Proof.
  destruct dir; simpl; [apply compare_column_eq_l|].
  intros H. symmetry. by apply compare_column_eq_r.
Qed.

Lemma compare_directed_eq_r col dir a b c :
  compare_directed col dir b c = Eq →
  compare_directed col dir a b = compare_directed col dir a c.
Proof.
  destruct dir; simpl; [apply compare_column_eq_r|].
  intros H. symmetry. by apply compare_column_eq_l.
Qed.

Global Instance order_by_total col dir : Total (order_by col dir).
Proof.
  intros a b. unfold order_by.
  rewrite (compare_directed_antisym col dir a b).
  destruct (compare_directed col dir a b); simpl; auto. lia.
Qed.

Global Instance order_by_trans col dir : Transitive (order_by col dir).
Proof.
  intros a b c. unfold order_by.
  destruct (compare_directed col dir a b) eqn:Hab; [| |done].
  - rewrite (compare_directed_eq_l col dir a b c Hab).
    destruct (compare_directed col dir b c); auto. lia.
  - destruct (compare_directed col dir b c) eqn:Hbc; [| |done].
    + by rewrite <-(compare_directed_eq_r col dir a b c Hbc), Hab.
    + by rewrite (compare_directed_lt_trans col dir a b c).
Qed.

(** ** What each statement reads and writes *)

Lemma select_active_by_id_None note_id db :
  select_active_by_id note_id db = None ↔ absent_or_deleted db note_id.
Proof.
  unfold select_active_by_id, absent_or_deleted.
  destruct (notes db !! note_id) as [c|] eqn:Hc; simpl; [|by split; auto].
  case_decide as Hd; unfold active in Hd; simpl in Hd.
  - split; [done|]. intros [?|(c' & d' & ? & ?)]; simplify_eq.
  - split; [|done]. intros _. right.
    destruct (col_deleted_date c) as [d|] eqn:Ed; [|done]. by exists c, d.
Qed.

Lemma select_active_by_id_Some note_id db c :
  notes db !! note_id = Some c → col_deleted_date c = None →
  select_active_by_id note_id db = Some (note_id, c).
Proof.
  intros Hc Hd. unfold select_active_by_id. rewrite Hc. simpl.
  by rewrite decide_True.
Qed.

Lemma active_or_not db note_id :
  is_active db note_id ∨ absent_or_deleted db note_id.
Proof.
  unfold is_active, absent_or_deleted.
  destruct (notes db !! note_id) as [c|]; [|by auto].
  destruct (col_deleted_date c) as [d|] eqn:Hd; [right; right|left]; eauto.
Qed.

Lemma max_rowid_ge (t : gmap Z Columns) (k : Z) (c : Columns) : t !! k = Some c → k ≤ max_rowid t.
Proof.
  intros Hk. apply (proj2 (elem_of_map_to_list t k c)) in Hk.
  unfold max_rowid.
  induction (map_to_list t) as [|[k' c'] l IH]; [by apply elem_of_nil in Hk|].
  rewrite fmap_cons. cbn [foldr fst].
  apply elem_of_cons in Hk as [Hk|Hk]; [simplify_eq; lia|].
  specialize (IH Hk). lia.
Qed.

Lemma insert_note_fresh title content created modified db :
  notes db !! (insert_note title content created modified db).2 = None.
Proof.
  simpl. destruct (notes db !! _) as [c|] eqn:Hc; [|done].
  apply max_rowid_ge in Hc. lia.
Qed.

Lemma alter_found (f : Columns → Columns) (t : gmap Z Columns) (k : Z) c :
  t !! k = Some c → alter f k t = <[k := f c]> t.
Proof.
  intros Hk. apply map_eq. intros j. destruct (decide (k = j)) as [->|Hne].
  - by rewrite lookup_alter_eq, lookup_insert_eq, Hk.
  - by rewrite lookup_alter_ne, lookup_insert_ne.
Qed.

(** ** The handlers, case by case *)

Ltac run :=
  repeat (unfold mbind, M_bind, mret, M_ret, mthrow, M_throw,
            sqlite_connection, query, execute, commit, record, gets, modify,
            _connect_sqlite, subscriptable, subscript; simpl).

Lemma get_note_not_found note_id w :
  absent_or_deleted (database w) note_id →
  database (get_note note_id w).1 = database w ∧
  (get_note note_id w).2 = Raise NotFound.
Proof.
  intros H%select_active_by_id_None. unfold get_note. run.
  rewrite H. by rewrite decide_True.
Qed.

Lemma get_note_found note_id w c :
  notes (database w) !! note_id = Some c → col_deleted_date c = None →
  database (get_note note_id w).1 = database w ∧
  (get_note note_id w).2 = Ok (_row_to_note_out (note_id, c)).
Proof.
  intros Hc Hd. unfold get_note. run.
  rewrite (select_active_by_id_Some _ _ c) by done.
  by rewrite decide_False.
Qed.

Lemma update_note_invalid now payload note_id w :
  NoteUpdate.title payload = None → NoteUpdate.content payload = None →
  update_note now payload note_id w = (w, Raise InvalidArgument).
Proof. intros Ht Hc. unfold update_note. by rewrite decide_True. Qed.

Lemma update_note_not_found now payload note_id w :
  ¬ (NoteUpdate.title payload = None ∧ NoteUpdate.content payload = None) →
  absent_or_deleted (database w) note_id →
  database (update_note now payload note_id w).1 = database w ∧
  (update_note now payload note_id w).2 = Raise NotFound.
Proof.
  intros Hp H%select_active_by_id_None. unfold update_note.
  rewrite decide_False by done. run. rewrite H. by rewrite decide_True.
Qed.

Lemma update_note_found now payload note_id w c :
  ¬ (NoteUpdate.title payload = None ∧ NoteUpdate.content payload = None) →
  notes (database w) !! note_id = Some c → col_deleted_date c = None →
  database (update_note now payload note_id w).1 =
    {| notes := <[note_id := merged now payload c]> (notes (database w));
       sqlite_sequence := sqlite_sequence (database w) |} ∧
  (update_note now payload note_id w).2 =
    Ok (_row_to_note_out (note_id, merged now payload c)).
Proof.
  intros Hp Hc Hd. unfold update_note. rewrite decide_False by done. run.
  rewrite (select_active_by_id_Some _ _ c) by done.
  rewrite decide_False by done. simpl.
  rewrite (alter_found _ _ _ c) by done.
  unfold select_by_id. simpl. rewrite lookup_insert_eq. done.
Qed.

Lemma delete_note_not_found now note_id w :
  absent_or_deleted (database w) note_id →
  database (delete_note now note_id w).1 = database w ∧
  (delete_note now note_id w).2 = Raise NotFound.
Proof.
  intros H%select_active_by_id_None. unfold delete_note. run.
  rewrite H. by rewrite decide_True.
Qed.

Lemma delete_note_found now note_id w c :
  notes (database w) !! note_id = Some c → col_deleted_date c = None →
  database (delete_note now note_id w).1 =
    {| notes := <[note_id := soft_deleted now c]> (notes (database w));
       sqlite_sequence := sqlite_sequence (database w) |} ∧
  (delete_note now note_id w).2 =
    Ok (_row_to_note_out (note_id, soft_deleted now c)).
Proof.
  intros Hc Hd. unfold delete_note. run.
  rewrite (select_active_by_id_Some _ _ c) by done.
  rewrite decide_False by done. simpl.
  rewrite (alter_found _ _ _ c) by done.
  unfold select_by_id. simpl. rewrite lookup_insert_eq. done.
Qed.

Lemma create_note_inserted now payload w :
  database (create_note now payload w).1 =
    (insert_note (NoteCreate.title payload) (NoteCreate.content payload)
       now now (database w)).1 ∧
  (create_note now payload w).2 =
    Ok {| NoteOut.id :=
            (insert_note (NoteCreate.title payload)
               (NoteCreate.content payload) now now (database w)).2;
          NoteOut.title := NoteCreate.title payload;
          NoteOut.content := NoteCreate.content payload;
          NoteOut.created_date := now;
          NoteOut.modified_date := now;
          NoteOut.deleted_date := None |}.
Proof.
  unfold create_note. run. unfold select_by_id. simpl.
  rewrite lookup_insert_eq. done.
Qed.

Lemma list_notes_database limit offset sort_by sort_order w :
  database (list_notes limit offset sort_by sort_order w).1 = database w.
Proof.
  unfold list_notes. run. by destruct (_SORT_FIELDS !! sort_by).
Qed.

(** ** Listing *)

Lemma elem_of_active_rows db (r : Row) :
  r ∈ active_rows db ↔
  notes db !! r.1 = Some r.2 ∧ col_deleted_date r.2 = None.
Proof.
  unfold active_rows. rewrite list_elem_of_filter. destruct r as [k c].
  unfold active. simpl. pose proof (elem_of_map_to_list (notes db) k c). tauto.
Qed.

Lemma NoDup_active_rows db : NoDup (active_rows db).
Proof. apply NoDup_filter, NoDup_map_to_list. Qed.

Lemma active_rows_count db :
  length (active_rows db) =
  size (filter (λ kc : Z * Columns, col_deleted_date kc.2 = None) (notes db)).
Proof.
  rewrite <-length_map_to_list. apply Permutation_length.
  apply NoDup_Permutation; [apply NoDup_active_rows|apply NoDup_map_to_list|].
  intros [k c]. rewrite elem_of_active_rows. simpl.
  pose proof (elem_of_map_to_list
    (filter (λ kc : Z * Columns, col_deleted_date kc.2 = None) (notes db)) k c)
    as Hl.
  rewrite map_lookup_filter_Some in Hl. simpl in Hl. tauto.
Qed.

Global Instance _row_to_note_out_inj : Inj (=) (=) _row_to_note_out.
Proof.
  intros [k [t c cr m d]] [k' [t' c' cr' m' d']] H.
  unfold _row_to_note_out in H. simpl in H. by simplify_eq.
Qed.

Lemma order_by_key_le col dir (a b : Row) :
  order_by col dir a b → key_le col dir (_row_to_note_out a) (_row_to_note_out b).
Proof.
  unfold order_by, key_le, text_le.
  destruct dir, col; simpl;
    try (destruct (String.compare _ _) eqn:E;
         first [done | by rewrite ?string_compare_gt_lt, ?E]).
  - destruct (Z.compare_spec a.1 b.1); intros; first [done | lia].
  - destruct (Z.compare_spec b.1 a.1); intros; first [done | lia].
Qed.

Lemma limit_offset_window {A} (limit offset : Z) (l : list A) :
  0 ≤ limit →
  limit_offset limit offset l =
  take (Z.to_nat limit) (drop (Z.to_nat offset) l).
Proof.
  intros Hl. unfold limit_offset. by rewrite (proj2 (Z.ltb_ge limit 0)).
Qed.

(** The rows a listing pages through: every active row once, in order. *)
Lemma sorted_active_rows col dir db :
  let sorted := merge_sort (order_by col dir) (active_rows db) in
  StronglySorted (order_by col dir) sorted ∧ NoDup sorted ∧
  length sorted = length (active_rows db) ∧
  ∀ r, r ∈ sorted ↔ notes db !! r.1 = Some r.2 ∧ col_deleted_date r.2 = None.
Proof.
  simpl. pose proof (merge_sort_Permutation (order_by col dir) (active_rows db))
    as Hp.
  split_and!.
  - apply (StronglySorted_merge_sort _).
  - rewrite Hp. apply NoDup_active_rows.
  - by rewrite Hp.
  - intros r. rewrite Hp. apply elem_of_active_rows.
Qed.

Lemma list_notes_result limit offset sort_by sort_order col w :
  _SORT_FIELDS !! sort_by = Some col →
  (list_notes limit offset sort_by sort_order w).2 =
  Ok {| PaginatedNotes.total := select_count_active (database w);
        PaginatedNotes.items :=
          _row_to_note_out <$>
            select_page col (if decide (lower sort_order = "asc") then ASC else DESC)
              limit offset (database w);
        PaginatedNotes.limit := limit;
        PaginatedNotes.offset := offset |}.
Proof. intros Hs. unfold list_notes. run. by rewrite Hs. Qed.

(** ** Requests as transitions of the database *)

Lemma get_note_database note_id w : database (get_note note_id w).1 = database w.
Proof.
  destruct (active_or_not (database w) note_id) as [(c & Hc & Hd)|H].
  - by apply (get_note_found note_id w c).
  - by apply get_note_not_found.
Qed.

Lemma serve_transition now r w :
  transition now (database w) (database (serve now r w)).
Proof.
  destruct r as [limit offset sort_by sort_order|note_id|payload
                |payload note_id|note_id]; simpl.
  - rewrite list_notes_database. constructor.
  - rewrite get_note_database. constructor.
  - rewrite (proj1 (create_note_inserted now payload w)). constructor.
  - destruct (decide (NoteUpdate.title payload = None ∧
                      NoteUpdate.content payload = None)) as [[Ht Hc]|Hp].
    { rewrite update_note_invalid by done. constructor. }
    destruct (active_or_not (database w) note_id) as [(c & Hc & Hd)|H].
    + rewrite (proj1 (update_note_found now payload note_id w c Hp Hc Hd)).
      by constructor.
    + rewrite (proj1 (update_note_not_found now payload note_id w Hp H)).
      constructor.
  - destruct (active_or_not (database w) note_id) as [(c & Hc & Hd)|H].
    + rewrite (proj1 (delete_note_found now note_id w c Hc Hd)).
      by constructor.
    + rewrite (proj1 (delete_note_not_found now note_id w H)). constructor.
Qed.

Lemma run_cons now r trace w :
  run ((now, r) :: trace) w = run trace (serve now r w).
Proof. done. Qed.

Lemma transition_deleted_frozen now db db' note_id c d :
  notes db !! note_id = Some c → col_deleted_date c = Some d →
  transition now db db' → notes db' !! note_id = Some c.
Proof.
  intros Hc Hd Ht.
  inversion Ht as [|title content|payload k c' Hk Hd'|k c' Hk Hd']; subst;
    simpl; [done| | |].
  - rewrite lookup_insert_ne; [done|]. intros Heq.
    pose proof (insert_note_fresh title content now now db) as Hf.
    simpl in Hf. rewrite Heq in Hf. congruence.
  - rewrite lookup_insert_ne; [done|]. intros ->. congruence.
  - rewrite lookup_insert_ne; [done|]. intros ->. congruence.
Qed.

Lemma run_deleted_frozen trace w note_id c d :
  notes (database w) !! note_id = Some c → col_deleted_date c = Some d →
  notes (database (run trace w)) !! note_id = Some c.
Proof.
  revert w. induction trace as [|[now r] trace IH]; intros w Hc Hd; [done|].
  rewrite run_cons. apply IH; [|done].
  eapply transition_deleted_frozen; eauto using serve_transition.
Qed.

Lemma transition_dates_ordered t now db db' :
  text_le t now → dates_ordered t db → transition now db db' →
  dates_ordered now db'.
Proof.
  intros Hle Hinv Ht.
  assert (∀ k c, notes db !! k = Some c →
            text_le (col_created_date c) (col_modified_date c) ∧
            text_le (col_created_date c) now) as Hold.
  { intros k c Hk. destruct (Hinv k c Hk). split; [done|]. by etrans. }
  inversion Ht as [|title content|payload k c' Hk Hd'|k c' Hk Hd']; subst;
    intros j cj; simpl; [by apply Hold | | |].
  - intros [[_ <-]|[_ Hj]]%lookup_insert_Some; [|by eauto].
    simpl. split; reflexivity.
  - intros [[_ <-]|[_ Hj]]%lookup_insert_Some; [|by eauto].
    simpl. destruct (Hold k c' Hk). done.
  - intros [[_ <-]|[_ Hj]]%lookup_insert_Some; [|by eauto].
    simpl. destruct (Hold k c' Hk). done.
Qed.

Lemma run_dates_ordered trace t w :
  dates_ordered t (database w) → Sorted text_le (t :: trace.*1) →
  ∃ t', dates_ordered t' (database (run trace w)).
Proof.
  revert t w. induction trace as [|[now r] trace IH]; intros t w Hinv Hs.
  - by exists t.
  - rewrite run_cons. rewrite fmap_cons in Hs. simpl in Hs.
    apply Sorted_inv in Hs as [Hs Hhd]. apply HdRel_inv in Hhd.
    apply (IH now); [|done].
    eapply transition_dates_ordered; eauto using serve_transition.
Qed.

(** ** The sample run, evaluated *)

Example create_first_note :
  (create_note "2026-01-01T09:00:00+00:00" (NoteCreate.mk "T" "C")
     empty_world).2 =
  Ok (NoteOut.mk 1 "T" "C" "2026-01-01T09:00:00+00:00"
        "2026-01-01T09:00:00+00:00" None).
Proof. vm_compute. reflexivity. Qed.

Example create_empty_strings :
  (create_note "2026-01-01T09:00:00+00:00" (NoteCreate.mk "" "")
     three_notes).2 =
  Ok (NoteOut.mk 4 "" "" "2026-01-01T09:00:00+00:00"
        "2026-01-01T09:00:00+00:00" None).
Proof. vm_compute. reflexivity. Qed.

Example list_by_title_asc :
  (λ page, NoteOut.title <$> PaginatedNotes.items page) <$>
    match (list_notes 20 0 "title" "asc" three_notes).2 with
    | Ok page => Some page
    | Raise _ => None
    end = Some ["a"; "b"; "c"].
Proof. vm_compute. reflexivity. Qed.

Example list_by_title_desc :
  (λ page, NoteOut.title <$> PaginatedNotes.items page) <$>
    match (list_notes 20 0 "title" "desc" three_notes).2 with
    | Ok page => Some page
    | Raise _ => None
    end = Some ["c"; "b"; "a"].
Proof. vm_compute. reflexivity. Qed.

Example list_skips_deleted :
  (λ page, (PaginatedNotes.total page,
            NoteOut.id <$> PaginatedNotes.items page)) <$>
    match (GET_notes {| q_limit := None; q_offset := None;
                        q_sort_by := None; q_sort_order := None |}
             one_deleted).2 with
    | Ok page => Some page
    | Raise _ => None
    end = Some (2, [3; 2]).
Proof. vm_compute. reflexivity. Qed.

Example get_after_delete :
  (get_note 1 one_deleted).2 = Raise NotFound.
Proof. vm_compute. reflexivity. Qed.

Example unknown_sort_field_in_handler :
  list_notes 20 0 "content" "asc" three_notes =
    (three_notes, Raise (KeyError "content")).
Proof. vm_compute. reflexivity. Qed.

Example journal_of_delete :
  journal (delete_note "2026-01-02T10:30:00+00:00" 1
             {| database := database three_notes; journal := [] |}).1 =
  [Connected; Executed PragmaForeignKeys; Executed (SelectActiveById 1);
   Executed (UpdateDeleted 1); Committed; Executed (SelectById 1); Closed].
Proof. vm_compute. reflexivity. Qed.

(** ** Not found *)




(** ** Soft-delete is final *)

Lemma delete_note_ok_active now note_id w n :
  (delete_note now note_id w).2 = Ok n →
  ∃ c, notes (database w) !! note_id = Some c ∧ col_deleted_date c = None.
Proof.
  intros Hok. destruct (active_or_not (database w) note_id) as [H|H]; [done|].
  apply (delete_note_not_found now) in H as [_ H]. congruence.
Qed.

(** C2.  Once [delete_note] has succeeded on an id, a second [delete_note]
    on it raises 404 and changes nothing; and whatever requests follow, the
    row stays exactly as the soft-delete left it, its [deleted_date]
    included, and a later [delete_note] is still turned down.  The same
    holds of every row that carries a [deleted_date]: no sequence of
    requests changes it. *)
Theorem deleted_is_terminal trace now now' note_id w n :
  (delete_note now note_id w).2 = Ok n →
  let w' := (delete_note now note_id w).1 in
  ((delete_note now' note_id w').2 = Raise NotFound ∧
   database (delete_note now' note_id w').1 = database w') ∧
  (∃ c, notes (database w') !! note_id = Some c ∧
        col_deleted_date c = Some now ∧
        notes (database (run trace w')) !! note_id = Some c ∧
        (delete_note now' note_id (run trace w')).2 = Raise NotFound) ∧
  ∀ j cj dj, notes (database w') !! j = Some cj →
    col_deleted_date cj = Some dj →
    notes (database (run trace w')) !! j = Some cj.
Proof.
  intros Hok. destruct (delete_note_ok_active _ _ _ _ Hok) as (c & Hc & Hd).
  destruct (delete_note_found now note_id w c Hc Hd) as [Hdb _].
  simpl.
  assert (notes (database (delete_note now note_id w).1) !! note_id =
            Some (soft_deleted now c)) as Hc'.
  { rewrite Hdb. simpl. apply lookup_insert_eq. }
  split_and!.
  - apply delete_note_not_found; right; by eexists _, _.
  - apply delete_note_not_found; right; by eexists _, _.
  - exists (soft_deleted now c).
    pose proof (run_deleted_frozen trace _ _ _ now Hc' eq_refl) as Hrun.
    split_and!; [done|done|done|].
    apply delete_note_not_found. right. by eexists _, _.
  - intros j cj dj. apply run_deleted_frozen.
Qed.

Lemma deleted_is_terminal_witness :
  (delete_note "2026-01-02T10:30:00+00:00" 1 three_notes).2 =
    Ok (NoteOut.mk 1 "b" "first" "2026-01-01T09:00:00+00:00"
          "2026-01-02T10:30:00+00:00" (Some "2026-01-02T10:30:00+00:00")) ∧
  (delete_note "2026-01-02T10:30:01+00:00" 1
     (delete_note "2026-01-02T10:30:00+00:00" 1 three_notes).1).2 =
    Raise NotFound.
Proof.
  assert ((delete_note "2026-01-02T10:30:00+00:00" 1 three_notes).2 =
    Ok (NoteOut.mk 1 "b" "first" "2026-01-01T09:00:00+00:00"
          "2026-01-02T10:30:00+00:00" (Some "2026-01-02T10:30:00+00:00")))
    as Hok by (vm_compute; reflexivity).
  split; [exact Hok|].
  exact (proj1 (proj1 (deleted_is_terminal
    [("2026-01-02T10:31:00+00:00", Update (NoteUpdate.mk (Some "x") None) 1)]
    "2026-01-02T10:30:00+00:00" "2026-01-02T10:30:01+00:00" 1
    three_notes _ Hok))).
Defined.

(** ** Create and update *)

(** C4.  [create_note] always succeeds.  The note it returns carries the
    payload's title and content, whatever they are, the one clock reading as
    both [created_date] and [modified_date], no [deleted_date], and an id no
    note had before; it is the row read back from the database, and no other
    row has changed. *)
Theorem create_note_materialized now payload w :
  ∃ n, (create_note now payload w).2 = Ok n ∧
    NoteOut.title n = NoteCreate.title payload ∧
    NoteOut.content n = NoteCreate.content payload ∧
    NoteOut.created_date n = now ∧
    NoteOut.modified_date n = now ∧
    NoteOut.created_date n = NoteOut.modified_date n ∧
    NoteOut.deleted_date n = None ∧
    notes (database w) !! NoteOut.id n = None ∧
    (_row_to_note_out <$>
       select_by_id (NoteOut.id n) (database (create_note now payload w).1))
      = Some n ∧
    ∀ j, j ≠ NoteOut.id n →
      notes (database (create_note now payload w).1) !! j =
      notes (database w) !! j.
Proof.
  destruct (create_note_inserted now payload w) as [Hdb Hres].
  eexists. split; [exact Hres|]. simpl. split_and!; try done.
  - apply (insert_note_fresh (NoteCreate.title payload)
             (NoteCreate.content payload) now now).
  - rewrite Hdb. unfold select_by_id. simpl. by rewrite lookup_insert_eq.
  - intros j Hj. rewrite Hdb. simpl. by rewrite lookup_insert_ne.
Qed.

(** C3.  On a stored note that is not soft-deleted, [update_note] with a
    title or a content succeeds: each field the payload carries replaces the
    stored one, each field it leaves out keeps the stored value,
    [modified_date] becomes the clock reading, [id], [created_date] and
    [deleted_date] stay, no other row changes, and the note returned is the
    row now stored. *)
Theorem update_note_merges now payload note_id w c :
  notes (database w) !! note_id = Some c →
  col_deleted_date c = None →
  NoteUpdate.title payload ≠ None ∨ NoteUpdate.content payload ≠ None →
  let w' := (update_note now payload note_id w).1 in
  ∃ c', notes (database w') !! note_id = Some c' ∧
    (update_note now payload note_id w).2 = Ok (_row_to_note_out (note_id, c')) ∧
    col_title c' = match NoteUpdate.title payload with
                   | Some t => t
                   | None => col_title c
                   end ∧
    col_content c' = match NoteUpdate.content payload with
                     | Some t => t
                     | None => col_content c
                     end ∧
    col_modified_date c' = now ∧
    col_created_date c' = col_created_date c ∧
    col_deleted_date c' = col_deleted_date c ∧
    ∀ j, j ≠ note_id → notes (database w') !! j = notes (database w) !! j.
Proof.
  intros Hc Hd Hp. simpl.
  assert (¬ (NoteUpdate.title payload = None ∧
             NoteUpdate.content payload = None)) as Hp' by tauto.
  destruct (update_note_found now payload note_id w c Hp' Hc Hd) as [Hdb Hres].
  exists (merged now payload c). rewrite Hdb. simpl.
  split_and!; try done.
  - apply lookup_insert_eq.
  - intros j Hj. by rewrite lookup_insert_ne.
Qed.

Lemma update_note_merges_witness :
  (update_note "2026-01-03T08:00:00+00:00"
     (NoteUpdate.mk None (Some "second, revised")) 2 three_notes).2 =
  Ok (NoteOut.mk 2 "a" "second, revised" "2026-01-01T09:00:05+00:00"
        "2026-01-03T08:00:00+00:00" None).
Proof.
  destruct (update_note_merges "2026-01-03T08:00:00+00:00"
    (NoteUpdate.mk None (Some "second, revised")) 2 three_notes
    {| col_title := "a"; col_content := "second";
       col_created_date := "2026-01-01T09:00:05+00:00";
       col_modified_date := "2026-01-01T09:00:05+00:00";
       col_deleted_date := None |})
    as (c' & _ & Hres & Ht & Hc & Hm & Hcr & Hd & _).
  - vm_compute. reflexivity.
  - reflexivity.
  - right. simpl. discriminate.
  - rewrite Hres. destruct c' as [t c cr m d].
    simpl in Ht, Hc, Hm, Hcr, Hd. by subst.
Defined.

(** C6.  [update_note] with neither title nor content raises its 400 for
    every id, before any connection is opened: the world it leaves, database
    and journal, is the world it was given. *)
Theorem update_note_without_fields now note_id w :
  update_note now (NoteUpdate.mk None None) note_id w =
    (w, Raise InvalidArgument) ∧
  is_invalid_argument InvalidArgument = true.
Proof. split; [by apply update_note_invalid|done]. Qed.

(** C9.  An empty title is a title: on a stored note that is not
    soft-deleted, [update_note] with title [""] and no content stores the
    empty title and keeps the content, while a payload without title keeps
    the stored title. *)
Theorem update_note_empty_title now note_id w c :
  notes (database w) !! note_id = Some c →
  col_deleted_date c = None →
  (∃ c', notes (database (update_note now (NoteUpdate.mk (Some "") None)
                             note_id w).1) !! note_id = Some c' ∧
     (update_note now (NoteUpdate.mk (Some "") None) note_id w).2 =
       Ok (_row_to_note_out (note_id, c')) ∧
     col_title c' = "" ∧ col_content c' = col_content c) ∧
  (∀ content, ∃ c',
     notes (database (update_note now (NoteUpdate.mk None (Some content))
                        note_id w).1) !! note_id = Some c' ∧
     col_title c' = col_title c ∧ col_content c' = content).
Proof.
  intros Hc Hd. split; [|intros content].
  - destruct (update_note_found now (NoteUpdate.mk (Some "") None) note_id w c)
      as [Hdb Hres]; [by intros [? _]|done|done|].
    eexists. rewrite Hdb, Hres. simpl. rewrite lookup_insert_eq. done.
  - destruct (update_note_found now (NoteUpdate.mk None (Some content))
                note_id w c) as [Hdb _]; [by intros [_ ?]|done|done|].
    eexists. rewrite Hdb. simpl. rewrite lookup_insert_eq. done.
Qed.

Lemma update_note_empty_title_witness :
  ∃ c', (update_note "2026-01-03T08:00:00+00:00"
           (NoteUpdate.mk (Some "") None) 3 three_notes).2 =
          Ok (_row_to_note_out (3, c')) ∧
        col_title c' = "" ∧ col_content c' = "third".
Proof.
  destruct (update_note_empty_title "2026-01-03T08:00:00+00:00" 3 three_notes
    {| col_title := "c"; col_content := "third";
       col_created_date := "2026-01-01T09:00:09+00:00";
       col_modified_date := "2026-01-01T09:00:09+00:00";
       col_deleted_date := None |})
    as [(c' & _ & Hres & Ht & Hc) _].
  - vm_compute. reflexivity.
  - reflexivity.
  - exists c'. simpl in Hc. done.
Defined.

(** ** Listing, page by page *)

(** What a listing with usable arguments returns: [all] is every active
    note once, in the order asked for, and the page is a window of it. *)
Lemma list_notes_window limit offset sort_by sort_order col dir w :
  0 ≤ limit →
  _SORT_FIELDS !! sort_by = Some col →
  (if decide (lower sort_order = "asc") then ASC else DESC) = dir →
  ∃ page all,
    (list_notes limit offset sort_by sort_order w).2 = Ok page ∧
    PaginatedNotes.total page = Z.of_nat (length all) ∧
    PaginatedNotes.limit page = limit ∧
    PaginatedNotes.offset page = offset ∧
    PaginatedNotes.items page =
      take (Z.to_nat limit) (drop (Z.to_nat offset) all) ∧
    StronglySorted (key_le col dir) all ∧
    NoDup all ∧
    length all =
      size (filter (λ kc : Z * Columns, col_deleted_date kc.2 = None)
              (notes (database w))) ∧
    ∀ n, n ∈ all ↔
      NoteOut.deleted_date n = None ∧
      ∃ c, notes (database w) !! NoteOut.id n = Some c ∧
           n = _row_to_note_out (NoteOut.id n, c).
Proof.
  intros Hl Hs Hd.
  destruct (sorted_active_rows col dir (database w))
    as (Hsorted & Hnd & Hlen & Hin).
  eexists _, (_row_to_note_out <$>
                merge_sort (order_by col dir) (active_rows (database w))).
  split; [by apply list_notes_result|]. rewrite Hd. simpl.
  split_and!; try done.
  - unfold select_count_active. by rewrite length_fmap, Hlen.
  - unfold select_page. rewrite limit_offset_window by done.
    by rewrite fmap_take, fmap_drop.
  - eapply StronglySorted_fmap; [|done]. apply order_by_key_le.
  - by apply (NoDup_fmap_2 _).
  - by rewrite length_fmap, Hlen, active_rows_count.
  - intros n. rewrite list_elem_of_fmap. split.
    + intros ([k c] & -> & [Hk Hc]%Hin). simpl in *. eauto.
    + intros (Hdel & c & Hc & Hn). exists (NoteOut.id n, c).
      split; [done|]. apply Hin. simpl. split; [done|].
      rewrite Hn in Hdel. done.
Qed.





(** ** The declared parameters of [GET /notes] *)

Lemma check_nil name ok : check name ok = [] → ok = true.
Proof. by destruct ok. Qed.

(** C7.  A [GET /notes] request whose limit is outside 1..200, whose offset
    is negative, or whose sort field or sort order is not one of the
    declared values is turned down as a bad request naming the offending
    parameters, and nothing is asked of the database: no connection is
    opened, no statement runs, the world is left as it was. *)
Theorem GET_notes_rejects q w :
  (∃ limit, q_limit q = Some limit ∧ (limit < 1 ∨ 200 < limit)) ∨
  (∃ offset, q_offset q = Some offset ∧ offset < 0) ∨
  (∃ sort_by, q_sort_by q = Some sort_by ∧
     sort_by ∉ ["created_date"; "modified_date"; "title"; "id"]) ∨
  (∃ sort_order, q_sort_order q = Some sort_order ∧
     sort_order ∉ ["asc"; "desc"]) →
  ∃ params,
    GET_notes q w = (w, Raise (RequestValidationError params)) ∧
    params ≠ [] ∧
    is_invalid_argument (RequestValidationError params) = true.
Proof.
  intros Hbad. unfold GET_notes.
  match goal with |- context [decide (?errors = [])] =>
    destruct (decide (errors = [])) as [Hnil|Hne]; [exfalso|by eexists]
  end.
  apply app_eq_nil in Hnil as [Hlimit Hnil].
  apply app_eq_nil in Hnil as [Hoffset Hnil].
  apply app_eq_nil in Hnil as [Hsort_by Hsort_order].
  apply check_nil in Hlimit, Hoffset, Hsort_by, Hsort_order.
  unfold in_range in Hlimit, Hoffset.
  apply bool_decide_eq_true in Hsort_by, Hsort_order.
  destruct Hbad as [(l & Hq & Hl)|[(o & Hq & Ho)|[(s & Hq & Hs)|(s & Hq & Hs)]]];
    rewrite Hq in *; simpl in *; [lia|lia|done|done].
Qed.

Lemma GET_notes_rejects_witness :
  ∃ params,
    GET_notes {| q_limit := Some 201; q_offset := Some (-1);
                 q_sort_by := Some "content"; q_sort_order := Some "ASC" |}
      three_notes = (three_notes, Raise (RequestValidationError params)) ∧
    params ≠ [].
Proof.
  destruct (GET_notes_rejects
    {| q_limit := Some 201; q_offset := Some (-1);
       q_sort_by := Some "content"; q_sort_order := Some "ASC" |} three_notes)
    as (params & Hres & Hne & _).
  - left. exists 201. split; [reflexivity|lia].
  - by exists params.
Defined.

(** C10.  A [GET /notes] request with no parameter at all is [list_notes]
    with limit 20, offset 0, sort field [modified_date] and order [desc]:
    it returns the first 20 at most of all active notes, latest
    [modified_date] first. *)
Theorem GET_notes_defaults w :
  let bare := {| q_limit := None; q_offset := None;
                 q_sort_by := None; q_sort_order := None |} in
  GET_notes bare w = list_notes 20 0 "modified_date" "desc" w ∧
  ∃ page all,
    (GET_notes bare w).2 = Ok page ∧
    PaginatedNotes.limit page = 20 ∧
    PaginatedNotes.offset page = 0 ∧
    (NoDup all ∧
     ∀ n, n ∈ all ↔
       NoteOut.deleted_date n = None ∧
       ∃ c, notes (database w) !! NoteOut.id n = Some c ∧
            n = _row_to_note_out (NoteOut.id n, c)) ∧
    StronglySorted
      (λ a b, text_le (NoteOut.modified_date b) (NoteOut.modified_date a)) all ∧
    PaginatedNotes.items page = take 20 all ∧
    (length (PaginatedNotes.items page) ≤ 20)%nat.
Proof.
  simpl. split; [reflexivity|].
  change (GET_notes _ w) with (list_notes 20 0 "modified_date" "desc" w).
  destruct (list_notes_window 20 0 "modified_date" "desc" ColModifiedDate DESC w)
    as (page & all & Hres & Htot & Hlim & Hoff & Hitems & Hsorted & Hnd
        & Hlen & Hin); [lia|reflexivity|reflexivity|].
  exists page, all. split_and!; try done.
  rewrite Hitems. rewrite length_take. lia.
Qed.

(** ** Timestamps *)

Lemma dates_ordered_empty t : dates_ordered t (database empty_world).
Proof. intros k c Hk. simpl in Hk. by rewrite lookup_empty in Hk. Qed.

(** C8.  Start from the empty database and serve any requests while the
    clock never goes back: every stored note has [created_date] no later
    than [modified_date].  If the note is not soft-deleted, an update that
    carries a field stores the clock reading as its [modified_date], and a
    soft-delete stores the one clock reading as both its [deleted_date] and
    its [modified_date] and returns the note so marked. *)
Theorem modified_not_before_created trace now payload note_id c :
  clock_non_decreasing trace →
  let w := run trace empty_world in
  notes (database w) !! note_id = Some c →
  text_le (col_created_date c) (col_modified_date c) ∧
  (col_deleted_date c = None →
   (NoteUpdate.title payload ≠ None ∨ NoteUpdate.content payload ≠ None →
    ∃ c', notes (database (update_note now payload note_id w).1) !! note_id
            = Some c' ∧
          col_modified_date c' = now) ∧
   (∃ c', notes (database (delete_note now note_id w).1) !! note_id = Some c' ∧
          (delete_note now note_id w).2 = Ok (_row_to_note_out (note_id, c')) ∧
          col_deleted_date c' = Some now ∧
          col_modified_date c' = now)).
Proof.
  intros Hclock w Hc. split.
  - destruct trace as [|[t0 r0] trace'] eqn:Htrace.
    + simpl in Hc. by rewrite lookup_empty in Hc.
    + destruct (run_dates_ordered trace t0 empty_world) as [t' Hinv].
      * apply dates_ordered_empty.
      * subst trace. unfold clock_non_decreasing in Hclock.
        rewrite fmap_cons in *. simpl in *.
        constructor; [done|]. constructor. reflexivity.
      * subst trace. by apply (Hinv note_id c).
  - intros Hd. split.
    + intros Hp.
      assert (¬ (NoteUpdate.title payload = None ∧
                 NoteUpdate.content payload = None)) as Hp' by tauto.
      destruct (update_note_found now payload note_id w c Hp' Hc Hd)
        as [Hdb _].
      exists (merged now payload c). rewrite Hdb. simpl.
      by rewrite lookup_insert_eq.
    + destruct (delete_note_found now note_id w c Hc Hd) as [Hdb Hres].
      exists (soft_deleted now c). rewrite Hdb. simpl.
      by rewrite lookup_insert_eq.
Qed.

Lemma modified_not_before_created_witness :
  text_le "2026-01-01T09:00:05+00:00" "2026-01-03T08:00:00+00:00" ∧
  ∃ c', (delete_note "2026-01-04T00:00:00+00:00" 2
           (run [("2026-01-03T08:00:00+00:00",
                  Update (NoteUpdate.mk (Some "a2") None) 2)] three_notes)).2
          = Ok (_row_to_note_out (2, c')) ∧
        col_deleted_date c' = Some "2026-01-04T00:00:00+00:00" ∧
        col_modified_date c' = "2026-01-04T00:00:00+00:00".
Proof.
  destruct (modified_not_before_created
    [("2026-01-01T09:00:00+00:00", Create (NoteCreate.mk "b" "first"));
     ("2026-01-01T09:00:05+00:00", Create (NoteCreate.mk "a" "second"));
     ("2026-01-01T09:00:09+00:00", Create (NoteCreate.mk "c" "third"));
     ("2026-01-03T08:00:00+00:00", Update (NoteUpdate.mk (Some "a2") None) 2)]
    "2026-01-04T00:00:00+00:00" (NoteUpdate.mk None (Some "x")) 2
    {| col_title := "a2"; col_content := "second";
       col_created_date := "2026-01-01T09:00:05+00:00";
       col_modified_date := "2026-01-03T08:00:00+00:00";
       col_deleted_date := None |})
    as [Hle Hrefresh].
  - apply (bool_decide_unpack _). vm_compute. exact I.
  - vm_compute. reflexivity.
  - split; [exact Hle|].
    destruct (Hrefresh eq_refl) as [_ (c' & _ & Hres & Hdel & Hmod)].
    exists c'. done.
Defined.

(** ** The declared path parameter

    [note_id] is declared [Path(..., ge=1)]: an id below 1 never reaches a
    handler, from 1 on the route is the handler. *)

Lemma note_id_route now payload note_id w :
  (1 ≤ note_id →
   GET_note note_id w = get_note note_id w ∧
   PUT_note now payload note_id w = update_note now payload note_id w ∧
   DELETE_note now note_id w = delete_note now note_id w) ∧
  (note_id < 1 →
   GET_note note_id w = (w, Raise (RequestValidationError ["note_id"])) ∧
   PUT_note now payload note_id w =
     (w, Raise (RequestValidationError ["note_id"])) ∧
   DELETE_note now note_id w =
     (w, Raise (RequestValidationError ["note_id"]))).
Proof.
  unfold GET_note, PUT_note, DELETE_note, in_range. split; intros Hid.
  - rewrite (proj2 (Z.leb_le 1 note_id)) by done. done.
  - rewrite (proj2 (Z.leb_gt 1 note_id)) by done. done.
Qed.

(** A request whose parameters pass the declared checks is served by
    [list_notes] on those parameters. *)
Lemma GET_notes_accepts limit offset sort_by sort_order w :
  1 ≤ limit ≤ 200 → 0 ≤ offset →
  sort_by ∈ ["created_date"; "modified_date"; "title"; "id"] →
  sort_order ∈ ["asc"; "desc"] →
  GET_notes {| q_limit := Some limit; q_offset := Some offset;
               q_sort_by := Some sort_by; q_sort_order := Some sort_order |} w
  = list_notes limit offset sort_by sort_order w.
Proof.
  intros Hl Ho Hs Hd. unfold GET_notes, in_range. simpl.
  rewrite (proj2 (Z.leb_le 1 limit)), (proj2 (Z.leb_le limit 200)),
    (proj2 (Z.leb_le 0 offset)) by lia.
  by rewrite !bool_decide_eq_true_2.
Qed.

(** ** The clock *)

Lemma string_length_app (s t : string) :
  String.length (s +:+ t) = (String.length s + String.length t)%nat.
Proof. induction s as [|a s IH]; simpl; [done|]. by rewrite IH. Qed.

Lemma string_compare_app (s s' t t' : string) :
  String.length s = String.length s' →
  String.compare (s +:+ t) (s' +:+ t') =
  match String.compare s s' with
  | Eq => String.compare t t'
  | r => r
  end.
Proof.
  revert s'. induction s as [|a s IH]; intros [|a' s'] Hlen; simpl in *;
    try done.
  destruct (Ascii.compare a a'); [|done|done]. apply IH. lia.
Qed.

Lemma length_zero_padded width z : String.length (zero_padded width z) = width.
Proof.
  revert z. induction width as [|w IH]; intros z; simpl; [done|].
  rewrite string_length_app, IH. simpl. lia.
Qed.

Lemma digit_compare d d' :
  0 ≤ d < 10 → 0 ≤ d' < 10 → Ascii.compare (digit d) (digit d') = (d ?= d').
Proof.
  intros Hd Hd'. unfold Ascii.compare, digit.
  rewrite !N_ascii_embedding by lia.
  rewrite <-N2Z.inj_compare, !N2Z.inj_add, !Z2N.id by lia.
  apply Z.add_compare_mono_l.
Qed.

Lemma lexicographic_compare a b :
  match a / 10 ?= b / 10 with
  | Eq => a mod 10 ?= b mod 10
  | r => r
  end = (a ?= b).
Proof.
  pose proof (Z.div_mod a 10 ltac:(lia)).
  pose proof (Z.div_mod b 10 ltac:(lia)).
  pose proof (Z.mod_pos_bound a 10 ltac:(lia)).
  pose proof (Z.mod_pos_bound b 10 ltac:(lia)).
  symmetry.
  destruct (Z.compare_spec (a / 10) (b / 10));
    [destruct (Z.compare_spec (a mod 10) (b mod 10))|..];
    first [apply Z.compare_eq_iff | apply Z.compare_lt_iff
          | apply Z.compare_gt_iff]; lia.
Qed.

Lemma zero_padded_compare width a b :
  0 ≤ a < 10 ^ Z.of_nat width → 0 ≤ b < 10 ^ Z.of_nat width →
  String.compare (zero_padded width a) (zero_padded width b) = (a ?= b).
Proof.
  revert a b. induction width as [|w IH]; intros a b Ha Hb.
  - simpl in *. symmetry. apply Z.compare_eq_iff. lia.
  - rewrite Nat2Z.inj_succ, Z.pow_succ_r in Ha, Hb by lia.
    simpl. rewrite string_compare_app by by rewrite !length_zero_padded.
    rewrite IH by (split; [apply Z.div_pos; lia
                          |apply Z.div_lt_upper_bound; lia]).
    simpl. rewrite digit_compare by (apply Z.mod_pos_bound; lia).
    rewrite <-(lexicographic_compare a b).
    destruct (a / 10 ?= b / 10); [|done|done].
    by destruct (a mod 10 ?= b mod 10).
Qed.

Lemma compare_field width x y s t :
  0 ≤ x < 10 ^ Z.of_nat width → 0 ≤ y < 10 ^ Z.of_nat width →
  String.compare (zero_padded width x +:+ s) (zero_padded width y +:+ t) =
  match x ?= y with
  | Eq => String.compare s t
  | r => r
  end.
Proof.
  intros Hx Hy. rewrite string_compare_app by by rewrite !length_zero_padded.
  by rewrite zero_padded_compare.
Qed.

Lemma compare_separator c s t :
  String.compare (String c "" +:+ s) (String c "" +:+ t) = String.compare s t.
Proof. simpl. by rewrite ascii_compare_refl. Qed.

Lemma utc_now_iso_compare a b :
  valid_datetime a → valid_datetime b →
  String.compare (utc_now_iso a) (utc_now_iso b) =
  datetime_compare (replace_microsecond 0 a) (replace_microsecond 0 b).
Proof.
  intros (?&?&?&?&?&?&?) (?&?&?&?&?&?&?).
  unfold utc_now_iso, isoformat, datetime_compare. cbn -[zero_padded Z.compare].
  repeat (rewrite compare_field by (simpl; lia);
          rewrite ?compare_separator).
  rewrite string_compare_refl, Z.compare_refl.
  repeat match goal with |- context [?x ?= ?y] => destruct (x ?= y) end;
    reflexivity.
Qed.

(** ** The journal of a request *)

Ltac not_in_body :=
  rewrite ?not_elem_of_cons; repeat split;
    first [discriminate | apply not_elem_of_nil].

Ltac journal_of body :=
  exists ([Connected; Executed PragmaForeignKeys] ++ body ++ [Closed]);
  split; [simpl; rewrite <-?app_assoc; reflexivity|];
  split; [right; exists body; split_and!;
            [reflexivity|not_in_body|not_in_body|reflexivity]|].

Ltac has_write stmt :=
  let H := fresh in
  intros H; specialize (H stmt); simpl in H;
  exfalso; cut (true = false);
    [discriminate
    |apply H; rewrite ?elem_of_cons; auto 10].

Lemma get_note_journal note_id w : well_journaled w (get_note note_id w).1.
Proof.
  unfold get_note. run.
  destruct (select_active_by_id note_id (database w)); simpl;
    journal_of [Executed (SelectActiveById note_id)]; done.
Qed.

Lemma list_notes_journal limit offset sort_by sort_order w :
  well_journaled w (list_notes limit offset sort_by sort_order w).1.
Proof.
  unfold list_notes. run. destruct (_SORT_FIELDS !! sort_by); simpl.
  - journal_of [Executed SelectCountActive; Executed SelectPage]. done.
  - exists []. rewrite app_nil_r. auto.
Qed.

Lemma create_note_journal now payload w :
  well_journaled w (create_note now payload w).1.
Proof.
  unfold create_note. run.
  match goal with |- context [select_by_id ?k ?db] =>
    destruct (select_by_id k db) end; simpl.
  all: journal_of [Executed InsertNote; Committed;
           Executed (SelectById
             (insert_note (NoteCreate.title payload)
                (NoteCreate.content payload) now now (database w)).2)].
  all: has_write InsertNote.
Qed.

Lemma update_note_journal now payload note_id w :
  well_journaled w (update_note now payload note_id w).1.
Proof.
  unfold update_note. case_decide.
  { exists []. simpl. rewrite app_nil_r. auto. }
  run. destruct (select_active_by_id note_id (database w)); simpl.
  - match goal with |- context [select_by_id ?k ?db] =>
      destruct (select_by_id k db) end; simpl.
    all: journal_of [Executed (SelectActiveById note_id);
             Executed (UpdateTitleContent note_id); Committed;
             Executed (SelectById note_id)].
    all: has_write (UpdateTitleContent note_id).
  - journal_of [Executed (SelectActiveById note_id)]. done.
Qed.

Lemma delete_note_journal now note_id w :
  well_journaled w (delete_note now note_id w).1.
Proof.
  unfold delete_note. run.
  destruct (select_active_by_id note_id (database w)); simpl.
  - match goal with |- context [select_by_id ?k ?db] =>
      destruct (select_by_id k db) end; simpl.
    all: journal_of [Executed (SelectActiveById note_id);
             Executed (UpdateDeleted note_id); Committed;
             Executed (SelectById note_id)].
    all: has_write (UpdateDeleted note_id).
  - journal_of [Executed (SelectActiveById note_id)]. done.
Qed.

Lemma serve_journal now r w : well_journaled w (serve now r w).
Proof.
  destruct r; simpl;
    auto using list_notes_journal, get_note_journal, create_note_journal,
      update_note_journal, delete_note_journal.
Qed.

(** X1.  Whatever the request, the journal only grows, by nothing or by one
    session that is opened, closed, and commits every write it makes at
    once; and a request that makes no write leaves the database as it
    was. *)
Theorem every_write_committed now r w :
  ∃ evs, journal (serve now r w) = journal w ++ evs ∧
         (evs = [] ∨ session evs) ∧
         (reads_only evs → database (serve now r w) = database w).
Proof. apply serve_journal. Qed.

(** ** When a handler succeeds *)

Lemma get_note_ok_inv note_id w n :
  (get_note note_id w).2 = Ok n →
  ∃ c, notes (database w) !! note_id = Some c ∧ col_deleted_date c = None ∧
       n = _row_to_note_out (note_id, c).
Proof.
  intros Hok. destruct (active_or_not (database w) note_id)
    as [(c & Hc & Hd)|H].
  - destruct (get_note_found note_id w c Hc Hd) as [_ Hres].
    exists c. split_and!; [done|done|congruence].
  - apply get_note_not_found in H as [_ H]. congruence.
Qed.

Lemma update_note_ok_inv now payload note_id w n :
  (update_note now payload note_id w).2 = Ok n →
  ¬ (NoteUpdate.title payload = None ∧ NoteUpdate.content payload = None) ∧
  ∃ c, notes (database w) !! note_id = Some c ∧ col_deleted_date c = None ∧
       n = _row_to_note_out (note_id, merged now payload c).
Proof.
  intros Hok.
  destruct (decide (NoteUpdate.title payload = None ∧
                    NoteUpdate.content payload = None)) as [[Ht Hc]|Hp].
  { rewrite update_note_invalid in Hok by done. discriminate. }
  split; [done|].
  destruct (active_or_not (database w) note_id) as [(c & Hc & Hd)|H].
  - destruct (update_note_found now payload note_id w c Hp Hc Hd)
      as [_ Hres].
    exists c. split_and!; [done|done|congruence].
  - apply (update_note_not_found now payload note_id w Hp) in H as [_ H].
    congruence.
Qed.

Lemma list_notes_ok_inv limit offset sort_by sort_order w page :
  (list_notes limit offset sort_by sort_order w).2 = Ok page →
  ∃ col dir, _SORT_FIELDS !! sort_by = Some col ∧
    page = {| PaginatedNotes.total := select_count_active (database w);
              PaginatedNotes.items :=
                _row_to_note_out <$>
                  select_page col dir limit offset (database w);
              PaginatedNotes.limit := limit;
              PaginatedNotes.offset := offset |}.
Proof.
  intros Hok. destruct (_SORT_FIELDS !! sort_by) as [col|] eqn:Hs.
  - rewrite (list_notes_result _ _ _ _ col) in Hok by done.
    eexists col, _. split; [done|]. by simplify_eq.
  - unfold list_notes in Hok. revert Hok. run. by rewrite Hs.
Qed.

Lemma list_notes_key_error limit offset sort_by sort_order w :
  _SORT_FIELDS !! sort_by = None →
  list_notes limit offset sort_by sort_order w = (w, Raise (KeyError sort_by)).
Proof. intros Hs. unfold list_notes. run. by rewrite Hs. Qed.


(** X2.  [get_note] returns a note exactly when a note with that id is
    stored without a [deleted_date], and then it returns that row, column
    by column; in every case it leaves the database as it was. *)
Theorem get_note_returns_stored note_id w n :
  ((get_note note_id w).2 = Ok n ↔
   ∃ c, notes (database w) !! note_id = Some c ∧
        col_deleted_date c = None ∧
        n = {| NoteOut.id := note_id;
               NoteOut.title := col_title c;
               NoteOut.content := col_content c;
               NoteOut.created_date := col_created_date c;
               NoteOut.modified_date := col_modified_date c;
               NoteOut.deleted_date := None |}) ∧
  database (get_note note_id w).1 = database w.
Proof.
  split; [|apply get_note_database]. split.
  - intros (c & Hc & Hd & ->)%get_note_ok_inv. exists c.
    split_and!; [done|done|]. unfold _row_to_note_out. simpl. by rewrite Hd.
  - intros (c & Hc & Hd & ->).
    destruct (get_note_found note_id w c Hc Hd) as [_ ->].
    unfold _row_to_note_out. simpl. by rewrite Hd.
Qed.


(** ** One request after another *)

(** X4.  A note just created can be fetched: [get_note] on the id that
    [create_note] returned gives back the very note it returned. *)
Theorem create_then_get now payload w :
  ∃ n, (create_note now payload w).2 = Ok n ∧
       (get_note (NoteOut.id n) (create_note now payload w).1).2 = Ok n.
Proof.
  destruct (create_note_inserted now payload w) as [Hdb Hres].
  eexists. split; [exact Hres|]. simpl.
  edestruct get_note_found as [_ ->].
  - rewrite Hdb. simpl. apply lookup_insert_eq.
  - done.
  - done.
Qed.

(** X5.  A note just updated can be fetched: after [update_note] has
    returned a note, [get_note] on the same id returns that note. *)
Theorem update_then_get now payload note_id w n :
  (update_note now payload note_id w).2 = Ok n →
  (get_note note_id (update_note now payload note_id w).1).2 = Ok n.
Proof.
  intros Hok. destruct (update_note_ok_inv _ _ _ _ _ Hok)
    as (Hp & c & Hc & Hd & ->).
  destruct (update_note_found now payload note_id w c Hp Hc Hd) as [Hdb _].
  edestruct get_note_found as [_ ->]; [| |done].
  - rewrite Hdb. simpl. apply lookup_insert_eq.
  - done.
Qed.

Lemma update_then_get_witness :
  (get_note 2 (update_note "2026-01-03T08:00:00+00:00"
                 (NoteUpdate.mk (Some "a2") None) 2 three_notes).1).2 =
  Ok (NoteOut.mk 2 "a2" "second" "2026-01-01T09:00:05+00:00"
        "2026-01-03T08:00:00+00:00" None).
Proof.
  apply update_then_get. vm_compute. reflexivity.
Defined.

Lemma limit_offset_sublist {A} (limit offset : Z) (l : list A) :
  limit_offset limit offset l `sublist_of` l.
Proof.
  unfold limit_offset. destruct (limit <? 0).
  - apply sublist_drop.
  - etrans; [apply sublist_take|apply sublist_drop].
Qed.

Lemma NoDup_ids_active_rows db : NoDup (active_rows db).*1.
Proof.
  apply NoDup_fmap_fst; [|apply NoDup_active_rows].
  intros k c1 c2 [H1 _]%elem_of_active_rows [H2 _]%elem_of_active_rows.
  simpl in *. congruence.
Qed.

(** The notes of a page, whatever the arguments: rows of [active_rows], each
    id at most once. *)
Lemma select_page_rows col dir limit offset db :
  NoDup (select_page col dir limit offset db).*1 ∧
  ∀ r, r ∈ select_page col dir limit offset db →
       notes db !! r.1 = Some r.2 ∧ col_deleted_date r.2 = None.
Proof.
  unfold select_page.
  pose proof (limit_offset_sublist limit offset
    (merge_sort (order_by col dir) (active_rows db))) as Hsub.
  split.
  - eapply sublist_NoDup; [|by apply fmap_sublist].
    rewrite (merge_sort_Permutation (order_by col dir)).
    apply NoDup_ids_active_rows.
  - intros r Hr. apply elem_of_active_rows.
    rewrite <-(merge_sort_Permutation (order_by col dir)).
    by eapply sublist_subseteq.
Qed.

(** X6.  Whatever limit, offset, sort field and sort order it is given, a
    listing that returns a page returns only stored notes without a
    [deleted_date], no id twice, and a [total] that is the number of such
    notes and depends on none of the four arguments. *)
Theorem list_notes_items_active limit offset sort_by sort_order w page :
  (list_notes limit offset sort_by sort_order w).2 = Ok page →
  NoDup (NoteOut.id <$> PaginatedNotes.items page) ∧
  (∀ n, n ∈ PaginatedNotes.items page →
     NoteOut.deleted_date n = None ∧
     ∃ c, notes (database w) !! NoteOut.id n = Some c ∧
          n = _row_to_note_out (NoteOut.id n, c)) ∧
  PaginatedNotes.total page =
    Z.of_nat (size (filter (λ kc : Z * Columns, col_deleted_date kc.2 = None)
                      (notes (database w)))).
Proof.
  intros (col & dir & Hs & ->)%list_notes_ok_inv. simpl.
  destruct (select_page_rows col dir limit offset (database w)) as [Hnd Hin].
  split_and!.
  - by rewrite <-list_fmap_compose.
  - intros n ([k c] & -> & [Hk Hd]%Hin)%list_elem_of_fmap. simpl in *. eauto.
  - unfold select_count_active. by rewrite active_rows_count.
Qed.

Lemma list_notes_items_active_witness :
  ∃ page, (list_notes (-5) (-1) "id" "whatever" one_deleted).2 = Ok page ∧
    PaginatedNotes.total page = 2 ∧
    NoDup (NoteOut.id <$> PaginatedNotes.items page).
Proof.
  assert (∃ page, (list_notes (-5) (-1) "id" "whatever" one_deleted).2
                    = Ok page) as [page Hok]
    by (eexists; vm_compute; reflexivity).
  destruct (list_notes_items_active _ _ _ _ _ _ Hok) as (Hnd & _ & Htot).
  exists page. split_and!; [done| |done].
  rewrite Htot. vm_compute. reflexivity.
Defined.

(** X7.  A soft-deleted note is gone for good: after [delete_note] has
    succeeded, and whatever requests follow, [get_note] on the id raises
    the 404 and no listing shows a note with that id. *)
Theorem deleted_note_never_listed trace now note_id w n limit offset sort_by
    sort_order :
  (delete_note now note_id w).2 = Ok n →
  let w' := run trace (delete_note now note_id w).1 in
  (get_note note_id w').2 = Raise NotFound ∧
  ∀ m, m ∈ items_of (list_notes limit offset sort_by sort_order w').2 →
       NoteOut.id m ≠ note_id.
Proof.
  intros Hok. destruct (delete_note_ok_active _ _ _ _ Hok) as (c & Hc & Hd).
  destruct (delete_note_found now note_id w c Hc Hd) as [Hdb _]. simpl.
  assert (notes (database (run trace (delete_note now note_id w).1)) !! note_id
            = Some (soft_deleted now c)) as Hfrozen.
  { apply (run_deleted_frozen _ _ _ _ now); [|done].
    rewrite Hdb. simpl. apply lookup_insert_eq. }
  split.
  - apply get_note_not_found. right. by eexists _, _.
  - intros m Hm Hid.
    destruct (list_notes _ _ _ _ _).2 as [page|e] eqn:Hres; simpl in Hm;
      [|by apply elem_of_nil in Hm].
    destruct (list_notes_ok_inv _ _ _ _ _ _ Hres) as (col & dir & _ & ->).
    simpl in Hm. apply list_elem_of_fmap in Hm as ([k c'] & -> & Hr).
    apply select_page_rows in Hr as [Hk Hd']. simpl in *. subst k.
    rewrite Hfrozen in Hk. by simplify_eq.
Qed.

Lemma deleted_note_never_listed_witness :
  (get_note 1 (run [("2026-01-05T00:00:00+00:00",
                     Create (NoteCreate.mk "d" "fourth"))] one_deleted)).2
    = Raise NotFound.
Proof.
  exact (proj1 (deleted_note_never_listed
    [("2026-01-05T00:00:00+00:00", Create (NoteCreate.mk "d" "fourth"))]
    "2026-01-02T10:30:00+00:00" 1 three_notes
    (NoteOut.mk 1 "b" "first" "2026-01-01T09:00:00+00:00"
       "2026-01-02T10:30:00+00:00" (Some "2026-01-02T10:30:00+00:00"))
    20 0 "id" "asc" ltac:(vm_compute; reflexivity))).
Defined.

(** ** Pages *)

(** X8.  Pages fit together: with the same sort field and order on an
    unchanged database, the page of [limit1] notes at [offset] followed by
    the page of [limit2] notes at [offset + limit1] is the page of
    [limit1 + limit2] notes at [offset]; nothing is skipped and nothing
    comes twice. *)
Theorem pages_concatenate limit1 limit2 offset sort_by sort_order w :
  0 ≤ limit1 → 0 ≤ limit2 → 0 ≤ offset →
  items_of (list_notes (limit1 + limit2) offset sort_by sort_order w).2 =
  items_of (list_notes limit1 offset sort_by sort_order w).2 ++
  items_of (list_notes limit2 (offset + limit1) sort_by sort_order w).2.
Proof.
  intros H1 H2 Ho. destruct (_SORT_FIELDS !! sort_by) as [col|] eqn:Hs.
  - rewrite !(list_notes_result _ _ _ _ col) by done. simpl.
    unfold select_page. rewrite !limit_offset_window by lia.
    rewrite <-fmap_app. f_equal.
    rewrite !Z2Nat.inj_add by lia.
    rewrite <-drop_drop. apply eq_sym, take_take_drop.
  - by rewrite !list_notes_key_error.
Qed.

Lemma pages_concatenate_witness :
  NoteOut.id <$> items_of (list_notes 3 0 "title" "desc" three_notes).2 =
  (NoteOut.id <$> items_of (list_notes 1 0 "title" "desc" three_notes).2) ++
  (NoteOut.id <$> items_of (list_notes 2 1 "title" "desc" three_notes).2).
Proof.
  rewrite <-fmap_app.
  exact (f_equal (fmap NoteOut.id)
           (pages_concatenate 1 2 0 "title" "desc" three_notes
              ltac:(lia) ltac:(lia) ltac:(lia))).
Defined.

(** X9.  Paging runs out and a wide page is complete: a page returned for
    an offset at or past [total] is empty, and a page returned for offset 0
    and a limit of at least [total] holds every stored note that has no
    [deleted_date]. *)
Theorem list_notes_exhaustive limit offset sort_by sort_order w page :
  (list_notes limit offset sort_by sort_order w).2 = Ok page →
  (PaginatedNotes.total page ≤ offset → PaginatedNotes.items page = []) ∧
  (offset = 0 → PaginatedNotes.total page ≤ limit →
   ∀ note_id c, notes (database w) !! note_id = Some c →
     col_deleted_date c = None →
     _row_to_note_out (note_id, c) ∈ PaginatedNotes.items page).
Proof.
  intros (col & dir & Hs & ->)%list_notes_ok_inv. simpl.
  destruct (sorted_active_rows col dir (database w))
    as (_ & _ & Hlen & Hin).
  unfold select_count_active, select_page, limit_offset. split.
  - intros Hoff.
    assert (drop (Z.to_nat offset)
              (merge_sort (order_by col dir) (active_rows (database w))) = [])
      as -> by (apply drop_ge; lia).
    destruct (limit <? 0); [done|by rewrite take_nil].
  - intros -> Hlim note_id c Hc Hd. apply list_elem_of_fmap.
    exists (note_id, c). split; [done|].
    rewrite (proj2 (Z.ltb_ge limit 0)) by lia.
    change (Z.to_nat 0) with 0%nat. rewrite drop_0, take_ge by lia.
    by apply Hin.
Qed.

Lemma list_notes_exhaustive_witness :
  ∃ page, (list_notes 2 0 "created_date" "asc" one_deleted).2 = Ok page ∧
    length (PaginatedNotes.items page) = 2%nat ∧
    _row_to_note_out
      (3, {| col_title := "c"; col_content := "third";
             col_created_date := "2026-01-01T09:00:09+00:00";
             col_modified_date := "2026-01-01T09:00:09+00:00";
             col_deleted_date := None |}) ∈ PaginatedNotes.items page.
Proof.
  assert (∃ page, (list_notes 2 0 "created_date" "asc" one_deleted).2
                    = Ok page ∧ PaginatedNotes.total page = 2 ∧
                  length (PaginatedNotes.items page) = 2%nat)
    as (page & Hok & Htot & Hlen)
    by (eexists; split_and!; vm_compute; reflexivity).
  destruct (list_notes_exhaustive _ _ _ _ _ _ Hok) as [_ Hall].
  exists page. split_and!; [done|done|].
  apply Hall; [done|lia|vm_compute; reflexivity|done].
Defined.

(** ** Counting the active notes *)

Lemma count_insert_fresh (t : gmap Z Columns) k c :
  t !! k = None → col_deleted_date c = None →
  size (filter (λ kc : Z * Columns, col_deleted_date kc.2 = None)
          (<[k := c]> t)) =
  S (size (filter (λ kc : Z * Columns, col_deleted_date kc.2 = None) t)).
Proof.
  intros Hk Hc. rewrite map_filter_insert_True by done.
  apply map_size_insert_None, map_lookup_filter_None. by left.
Qed.

Lemma count_replace_active (t : gmap Z Columns) k c c' :
  t !! k = Some c → col_deleted_date c = None → col_deleted_date c' = None →
  size (filter (λ kc : Z * Columns, col_deleted_date kc.2 = None)
          (<[k := c']> t)) =
  size (filter (λ kc : Z * Columns, col_deleted_date kc.2 = None) t).
Proof.
  intros Hk Hc Hc'. rewrite map_filter_insert_True by done.
  apply map_size_insert_Some. exists c. by apply map_lookup_filter_Some.
Qed.

Lemma count_deactivate (t : gmap Z Columns) k c c' d :
  t !! k = Some c → col_deleted_date c = None → col_deleted_date c' = Some d →
  size (filter (λ kc : Z * Columns, col_deleted_date kc.2 = None)
          (<[k := c']> t)) =
  pred (size (filter (λ kc : Z * Columns, col_deleted_date kc.2 = None)
                 t)).
Proof.
  intros Hk Hc Hc'.
  rewrite map_filter_insert_False by (simpl; congruence).
  rewrite map_filter_delete. apply map_size_delete_Some.
  exists c. by apply map_lookup_filter_Some.
Qed.

Lemma count_positive (t : gmap Z Columns) k c :
  t !! k = Some c → col_deleted_date c = None →
  (0 < size (filter (λ kc : Z * Columns, col_deleted_date kc.2 = None)
              t))%nat.
Proof.
  intros Hk Hc.
  destruct (size (filter (λ kc : Z * Columns, col_deleted_date kc.2 = None)
                    t)) eqn:Hsize; [|lia].
  apply map_size_empty_inv in Hsize.
  assert (filter (λ kc : Z * Columns, col_deleted_date kc.2 = None) t
            !! k = Some c) as Hl
    by by apply map_lookup_filter_Some.
  rewrite Hsize in Hl. by rewrite lookup_empty in Hl.
Qed.

(** X10.  How a request moves the number of active notes, the [total] of a
    listing: a create adds one, a soft-delete of a stored note that is not
    soft-deleted takes one away, and every other request, failing ones
    included, leaves it as it was. *)
Theorem active_count_accounting now r w :
  select_count_active (database (serve now r w)) =
  select_count_active (database w) +
  match r with
  | Create _ => 1
  | SoftDelete note_id =>
      match select_active_by_id note_id (database w) with
      | Some _ => -1
      | None => 0
      end
  | _ => 0
  end.
Proof.
  unfold select_count_active. rewrite !active_rows_count.
  destruct r as [limit offset sort_by sort_order|note_id|payload
                |payload note_id|note_id]; simpl.
  - rewrite list_notes_database. lia.
  - rewrite get_note_database. lia.
  - rewrite (proj1 (create_note_inserted now payload w)). simpl.
    rewrite count_insert_fresh; [lia| |done].
    apply (insert_note_fresh (NoteCreate.title payload)
             (NoteCreate.content payload) now now).
  - destruct (decide (NoteUpdate.title payload = None ∧
                      NoteUpdate.content payload = None)) as [[Ht Hc]|Hp].
    { rewrite update_note_invalid by done. simpl. lia. }
    destruct (active_or_not (database w) note_id) as [(c & Hc & Hd)|H].
    + rewrite (proj1 (update_note_found now payload note_id w c Hp Hc Hd)).
      simpl. rewrite (count_replace_active _ _ c) by done. lia.
    + rewrite (proj1 (update_note_not_found now payload note_id w Hp H)). lia.
  - destruct (active_or_not (database w) note_id) as [(c & Hc & Hd)|H].
    + rewrite (proj1 (delete_note_found now note_id w c Hc Hd)).
      rewrite (select_active_by_id_Some _ _ c) by done. simpl.
      rewrite (count_deactivate _ _ c _ now) by done.
      pose proof (count_positive _ _ _ Hc Hd). lia.
    + rewrite (proj1 (delete_note_not_found now note_id w H)).
      apply select_active_by_id_None in H. rewrite H. lia.
Qed.

(** ** What no request undoes *)

Lemma transition_row_kept now db db' note_id c :
  notes db !! note_id = Some c → transition now db db' →
  ∃ c', notes db' !! note_id = Some c' ∧
        col_created_date c' = col_created_date c.
Proof.
  intros Hc Ht.
  inversion Ht as [|title content|payload k c0 Hk Hd|k c0 Hk Hd]; subst;
    simpl; [by eauto| | |].
  - exists c. split; [|done]. rewrite lookup_insert_ne; [done|]. intros Heq.
    pose proof (insert_note_fresh title content now now db) as Hf.
    simpl in Hf. rewrite Heq in Hf. congruence.
  - destruct (decide (k = note_id)) as [->|Hne].
    + rewrite lookup_insert_eq. simplify_eq. by eauto.
    + rewrite lookup_insert_ne by done. by eauto.
  - destruct (decide (k = note_id)) as [->|Hne].
    + rewrite lookup_insert_eq. simplify_eq. by eauto.
    + rewrite lookup_insert_ne by done. by eauto.
Qed.

(** X11.  Nothing is ever removed and nothing is ever re-dated: a note
    stored under an id is still stored under that id after any sequence of
    requests, with the [created_date] it had. *)
Theorem notes_never_removed trace w note_id c :
  notes (database w) !! note_id = Some c →
  ∃ c', notes (database (run trace w)) !! note_id = Some c' ∧
        col_created_date c' = col_created_date c.
Proof.
  revert w c. induction trace as [|[now r] trace IH]; intros w c Hc.
  - by exists c.
  - rewrite run_cons.
    destruct (transition_row_kept now _ _ _ _ Hc (serve_transition now r w))
      as (c1 & Hc1 & Hcr1).
    destruct (IH _ _ Hc1) as (c' & Hc' & Hcr'). exists c'.
    split; [done|congruence].
Qed.

Lemma notes_never_removed_witness :
  ∃ c', notes (database (run
          [("2026-01-03T08:00:00+00:00",
            Update (NoteUpdate.mk (Some "a2") (Some "rewritten")) 2);
           ("2026-01-04T08:00:00+00:00", SoftDelete 2)] three_notes)) !! 2
          = Some c' ∧
        col_created_date c' = "2026-01-01T09:00:05+00:00".
Proof.
  apply (notes_never_removed _ three_notes 2
    {| col_title := "a"; col_content := "second";
       col_created_date := "2026-01-01T09:00:05+00:00";
       col_modified_date := "2026-01-01T09:00:05+00:00";
       col_deleted_date := None |}).
  vm_compute. reflexivity.
Defined.

(** X12.  A soft-delete marks and keeps: on a stored note that is not
    soft-deleted, [delete_note] returns the note with its title, content
    and [created_date] as stored, stores exactly what it returns, and
    changes no other row. *)
Theorem delete_note_keeps_content now note_id w c :
  notes (database w) !! note_id = Some c →
  col_deleted_date c = None →
  let w' := (delete_note now note_id w).1 in
  ∃ n, (delete_note now note_id w).2 = Ok n ∧
    NoteOut.id n = note_id ∧
    NoteOut.title n = col_title c ∧
    NoteOut.content n = col_content c ∧
    NoteOut.created_date n = col_created_date c ∧
    (_row_to_note_out <$> select_by_id note_id (database w')) = Some n ∧
    ∀ j, j ≠ note_id → notes (database w') !! j = notes (database w) !! j.
Proof.
  intros Hc Hd. destruct (delete_note_found now note_id w c Hc Hd)
    as [Hdb Hres]. simpl.
  eexists. split; [exact Hres|]. rewrite Hdb. simpl. split_and!; try done.
  - unfold select_by_id. simpl. by rewrite lookup_insert_eq.
  - intros j Hj. by rewrite lookup_insert_ne.
Qed.

Lemma delete_note_keeps_content_witness :
  ∃ n, (delete_note "2026-01-04T08:00:00+00:00" 3 three_notes).2 = Ok n ∧
       NoteOut.title n = "c" ∧ NoteOut.content n = "third".
Proof.
  destruct (delete_note_keeps_content "2026-01-04T08:00:00+00:00" 3
    three_notes
    {| col_title := "c"; col_content := "third";
       col_created_date := "2026-01-01T09:00:09+00:00";
       col_modified_date := "2026-01-01T09:00:09+00:00";
       col_deleted_date := None |})
    as (n & Hres & _ & Ht & Hc & _).
  - vm_compute. reflexivity.
  - reflexivity.
  - by exists n.
Defined.

(** ** Timestamps along a trace *)

Lemma transition_timestamps_consistent t now db db' :
  text_le t now → timestamps_consistent t db → transition now db db' →
  timestamps_consistent now db'.
Proof.
  intros Hle Hinv Ht.
  assert (timestamps_consistent now db) as Hold.
  { intros k c Hk. destruct (Hinv k c Hk) as (? & ? & ?).
    split_and!; [done|by etrans|done]. }
  inversion Ht as [|title content|payload k c0 Hk Hd|k c0 Hk Hd]; subst;
    intros j cj; simpl; [by apply Hold| | |].
  - intros [[_ <-]|[_ Hj]]%lookup_insert_Some; [|by eauto].
    simpl. split_and!; [reflexivity|reflexivity|done].
  - intros [[_ <-]|[_ Hj]]%lookup_insert_Some; [|by eauto].
    simpl. destruct (Hold k c0 Hk) as (? & ? & ?).
    split_and!; [by etrans|reflexivity|]. intros d. by rewrite Hd.
  - intros [[_ <-]|[_ Hj]]%lookup_insert_Some; [|by eauto].
    simpl. destruct (Hold k c0 Hk) as (? & ? & ?).
    split_and!; [by etrans|reflexivity|]. intros d. congruence.
Qed.

Lemma run_timestamps_consistent trace t w :
  timestamps_consistent t (database w) → Sorted text_le (t :: trace.*1) →
  timestamps_consistent (default t (last trace.*1)) (database (run trace w)).
Proof.
  revert t w. induction trace as [|[now r] trace IH]; intros t w Hinv Hs.
  - done.
  - rewrite run_cons. rewrite fmap_cons in *. simpl in Hs.
    apply Sorted_inv in Hs as [Hs Hhd]. apply HdRel_inv in Hhd.
    rewrite last_cons.
    replace (default t (match last trace.*1 with
                        | Some y => Some y
                        | None => Some now
                        end)) with (default now (last trace.*1))
      by by destruct (last trace.*1).
    apply IH; [|done].
    eapply transition_timestamps_consistent; eauto using serve_transition.
Qed.

Lemma timestamps_consistent_empty t :
  timestamps_consistent t (database empty_world).
Proof. intros k c Hk. simpl in Hk. by rewrite lookup_empty in Hk. Qed.

(** X13.  Start from the empty database and serve any requests while the
    clock never goes back.  Then no stored note is modified later than the
    last clock reading, and a soft-deleted note has its [deleted_date] equal
    to its [modified_date] and no earlier than its [created_date]: once
    soft-deleted it was never touched again. *)
Theorem modified_not_after_clock trace t note_id c :
  clock_non_decreasing trace →
  last trace.*1 = Some t →
  notes (database (run trace empty_world)) !! note_id = Some c →
  text_le (col_modified_date c) t ∧
  ∀ d, col_deleted_date c = Some d →
       d = col_modified_date c ∧ text_le (col_created_date c) d.
Proof.
  intros Hclock Hlast Hc. destruct trace as [|[t0 r0] trace'] eqn:Htrace.
  { done. }
  pose proof (run_timestamps_consistent trace t0 empty_world
    (timestamps_consistent_empty t0)) as Hinv.
  rewrite Htrace, Hlast in Hinv. simpl in Hinv.
  destruct (Hinv ltac:(by constructor; [|constructor]) note_id c Hc)
    as (Hcm & Hmt & Hdel).
  split; [done|]. intros d Hd. specialize (Hdel d Hd). by subst d.
Qed.

Lemma modified_not_after_clock_witness :
  text_le "2026-01-02T10:30:00+00:00" "2026-01-05T00:00:00+00:00" ∧
  text_le "2026-01-01T09:00:00+00:00" "2026-01-02T10:30:00+00:00".
Proof.
  destruct (modified_not_after_clock
    [("2026-01-01T09:00:00+00:00", Create (NoteCreate.mk "b" "first"));
     ("2026-01-02T10:30:00+00:00", SoftDelete 1);
     ("2026-01-05T00:00:00+00:00", Update (NoteUpdate.mk (Some "x") None) 1)]
    "2026-01-05T00:00:00+00:00" 1
    {| col_title := "b"; col_content := "first";
       col_created_date := "2026-01-01T09:00:00+00:00";
       col_modified_date := "2026-01-02T10:30:00+00:00";
       col_deleted_date := Some "2026-01-02T10:30:00+00:00" |})
    as [Hmod Hdel].
  - apply (bool_decide_unpack _). vm_compute. exact I.
  - reflexivity.
  - vm_compute. reflexivity.
  - split; [exact Hmod|]. by destruct (Hdel _ eq_refl).
Defined.

(** ** The clock, as text *)

Lemma datetime_compare_truncated a b :
  datetime_le a b →
  datetime_le (replace_microsecond 0 a) (replace_microsecond 0 b).
Proof.
  unfold datetime_le, datetime_compare. simpl.
  repeat match goal with
  | |- context [match ?x ?= ?y with _ => _ end] =>
      destruct (x ?= y) eqn:?; try done
  end.
Qed.

Lemma datetime_compare_eq a b : datetime_compare a b = Eq ↔ a = b.
Proof.
  unfold datetime_compare. simpl. split.
  - destruct a, b. simpl.
    repeat match goal with
    | |- context [match ?x ?= ?y with _ => _ end] =>
        destruct (Z.compare_spec x y); try done
    end.
    intros _. by subst.
  - intros ->. by rewrite !Z.compare_refl.
Qed.

Lemma utc_now_iso_monotone a b :
  valid_datetime a → valid_datetime b → datetime_le a b →
  text_le (utc_now_iso a) (utc_now_iso b).
Proof.
  intros Ha Hb Hle. unfold text_le. rewrite utc_now_iso_compare by done.
  by apply datetime_compare_truncated.
Qed.

(** X14.  [utc_now_iso] writes every reading in one shape: 25 bytes,
    [YYYY-MM-DDTHH:MM:SS+00:00], whatever the microseconds of the reading;
    [isoformat] alone would write 32 bytes for a reading with
    microseconds. *)
Theorem utc_now_iso_fixed_width clock :
  String.length (utc_now_iso clock) = 25%nat ∧
  String.get 4 (utc_now_iso clock) = Some "-"%char ∧
  String.get 7 (utc_now_iso clock) = Some "-"%char ∧
  String.get 10 (utc_now_iso clock) = Some "T"%char ∧
  String.get 13 (utc_now_iso clock) = Some ":"%char ∧
  String.get 16 (utc_now_iso clock) = Some ":"%char ∧
  String.substring 19 6 (utc_now_iso clock) = "+00:00" ∧
  utc_now_iso (replace_microsecond 0 clock) = utc_now_iso clock ∧
  String.length (isoformat clock) =
    if microsecond clock =? 0 then 25%nat else 32%nat.
Proof.
  unfold utc_now_iso, isoformat. simpl.
  destruct clock as [y mo d h mi s us]. simpl.
  split_and!; try reflexivity.
  destruct (us =? 0); reflexivity.
Qed.

(** X15.  The text [utc_now_iso] writes sorts as time does: for two valid
    readings, comparing the two texts byte by byte gives what comparing the
    readings to the second gives; so a later reading never writes a smaller
    text, and two readings write the same text exactly when they fall in
    the same second. *)
Theorem utc_now_iso_order a b :
  valid_datetime a → valid_datetime b →
  String.compare (utc_now_iso a) (utc_now_iso b) =
    datetime_compare (replace_microsecond 0 a) (replace_microsecond 0 b) ∧
  (datetime_le a b → text_le (utc_now_iso a) (utc_now_iso b)) ∧
  (utc_now_iso a = utc_now_iso b ↔
   replace_microsecond 0 a = replace_microsecond 0 b).
Proof.
  intros Ha Hb. split_and!.
  - by apply utc_now_iso_compare.
  - by apply utc_now_iso_monotone.
  - rewrite <-datetime_compare_eq, <-utc_now_iso_compare by done. split.
    + intros ->. apply string_compare_refl.
    + apply String.compare_eq_iff.
Qed.

Lemma utc_now_iso_order_witness :
  text_le "2026-11-04T13:05:00+00:00" "2027-01-01T00:00:00+00:00".
Proof.
  exact (proj1 (proj2 (utc_now_iso_order
    {| year := 2026; month := 11; day := 4; hour := 13; minute := 5;
       second := 0; microsecond := 999999 |}
    {| year := 2027; month := 1; day := 1; hour := 0; minute := 0;
       second := 0; microsecond := 0 |}
    ltac:(unfold valid_datetime; simpl; lia)
    ltac:(unfold valid_datetime; simpl; lia)))
    ltac:(vm_compute; discriminate)).
Defined.

Lemma Sorted_with_Forall {A} (P : A → Prop) (R : relation A) l :
  Forall P l → Sorted R l → Sorted (λ x y, P x ∧ P y ∧ R x y) l.
Proof.
  intros HP HS. induction HS as [|x l HS IH Hhd]; [constructor|].
  apply Forall_cons in HP as [Hx Hl]. constructor; [by apply IH|].
  destruct Hhd as [|y l' Hxy]; constructor.
  apply Forall_cons in Hl as [Hy _]. done.
Qed.

Lemma stamped_readings requests :
  (stamped requests).*1 = utc_now_iso <$> requests.*1.
Proof.
  unfold stamped. induction requests as [|[dt r] l IH]; [done|].
  rewrite !fmap_cons. simpl. by rewrite <-IH.
Qed.

Lemma stamped_clock_non_decreasing requests :
  chronological requests → clock_non_decreasing (stamped requests).
Proof.
  intros [Hvalid Hsorted]. unfold clock_non_decreasing.
  rewrite stamped_readings.
  eapply (Sorted_fmap _ _ text_le); [|by apply Sorted_with_Forall].
  intros x y (Hx & Hy & Hxy). by apply utc_now_iso_monotone.
Qed.

(** X16.  With the clock the handlers really read: start from the empty
    database and serve any requests at valid clock readings that never go
    back, each stamped by [utc_now_iso].  Then every stored note has
    [created_date] no later than [modified_date], as SQLite compares them,
    and [modified_date] no later than the stamp of the last request. *)
Theorem chronological_timestamps requests last_reading last_request note_id c :
  chronological requests →
  last requests = Some (last_reading, last_request) →
  notes (database (run (stamped requests) empty_world)) !! note_id = Some c →
  text_le (col_created_date c) (col_modified_date c) ∧
  text_le (col_modified_date c) (utc_now_iso last_reading).
Proof.
  intros Hchrono Hlast Hc.
  pose proof (stamped_clock_non_decreasing _ Hchrono) as Hclock.
  assert (last (stamped requests).*1 = Some (utc_now_iso last_reading))
    as Hlast'.
  { rewrite stamped_readings, !fmap_last, Hlast. done. }
  destruct (stamped requests) as [|[t0 r0] trace'] eqn:Htrace; [done|].
  pose proof (run_timestamps_consistent (stamped requests) t0 empty_world
    (timestamps_consistent_empty t0)) as Hinv.
  rewrite Htrace, Hlast' in Hinv. simpl in Hinv.
  destruct (Hinv ltac:(by constructor; [|constructor]) note_id c Hc)
    as (Hcm & Hmt & _).
  done.
Qed.

Lemma chronological_timestamps_witness :
  text_le "2026-01-01T09:00:00+00:00" "2026-01-01T09:01:00+00:00" ∧
  text_le "2026-01-01T09:01:00+00:00" "2026-01-01T09:01:00+00:00".
Proof.
  apply (chronological_timestamps
    [({| year := 2026; month := 1; day := 1; hour := 9; minute := 0;
         second := 0; microsecond := 250000 |},
      Create (NoteCreate.mk "b" "first"));
     ({| year := 2026; month := 1; day := 1; hour := 9; minute := 1;
         second := 0; microsecond := 750000 |},
      Update (NoteUpdate.mk None (Some "first, again")) 1)]
    {| year := 2026; month := 1; day := 1; hour := 9; minute := 1;
       second := 0; microsecond := 750000 |}
    (Update (NoteUpdate.mk None (Some "first, again")) 1) 1
    {| col_title := "b"; col_content := "first, again";
       col_created_date := "2026-01-01T09:00:00+00:00";
       col_modified_date := "2026-01-01T09:01:00+00:00";
       col_deleted_date := None |}).
  - split.
    + repeat constructor; simpl; lia.
    + repeat constructor; vm_compute; discriminate.
  - reflexivity.
  - vm_compute. reflexivity.
Defined.

(** ** The pattern of the connection file *)

Lemma prev_after_cons prev c cs : prev_after prev (c :: cs) = prev_after (Some c) cs.
Proof. unfold prev_after. rewrite last_cons. by destruct (last cs). Qed.

Lemma greedy_star_sound cls k prev rest g :
  greedy_star cls k prev rest = Some g →
  ∃ cs rest', rest = cs ++ rest' ∧ Forall (λ c, matches cls c = true) cs ∧
              k (prev_after prev cs) rest' = Some g.
Proof.
  revert prev. induction rest as [|c rest IH]; intros prev; simpl.
  - intros Hk. by exists [], [].
  - destruct (matches cls c) eqn:Hc; [|intros Hk; by exists [], (c :: rest)].
    destruct (greedy_star cls k (Some c) rest) as [g'|] eqn:Hin.
    + intros [= ->]. destruct (IH _ Hin) as (cs & rest' & -> & Hcs & Hk).
      exists (c :: cs), rest'. rewrite prev_after_cons.
      split_and!; [done|by constructor|done].
    + intros Hk. by exists [], (c :: rest).
Qed.

Lemma greedy_star_prefix cls k prev cs tail g :
  Forall (λ c, matches cls c = true) cs →
  (∀ c, head tail = Some c → matches cls c = false) →
  k (prev_after prev cs) tail = Some g →
  greedy_star cls k prev (cs ++ tail) = Some g.
Proof.
  intros Hcs Htail. revert prev.
  induction Hcs as [|c cs Hc Hcs IH]; intros prev Hk; simpl.
  - destruct tail as [|c tail]; [done|]. simpl. by rewrite (Htail c).
  - rewrite Hc. rewrite prev_after_cons in Hk. by rewrite (IH _ Hk).
Qed.

Lemma lazy_plus_sound cls k group rest g :
  lazy_plus cls k group rest = Some g →
  ∃ cs rest', cs ≠ [] ∧ rest = cs ++ rest' ∧
              Forall (λ c, matches cls c = true) cs ∧
              k (group ++ cs) (last cs) rest' = Some g.
Proof.
  revert group. induction rest as [|c rest IH]; intros group; simpl; [done|].
  destruct (matches cls c) eqn:Hc; [|done].
  destruct (k (group ++ [c]) (Some c) rest) as [g'|] eqn:Hk.
  - intros [= ->]. exists [c], rest. split_and!; [done|done|by repeat constructor|done].
  - intros (cs & rest' & Hne & -> & Hcs & Hk')%IH.
    exists (c :: cs), rest'. rewrite <-app_assoc in Hk'.
    split_and!; [done|done|by constructor|].
    rewrite last_cons. destruct (last cs) eqn:Hl; [done|].
    apply last_None in Hl. done.
Qed.

Lemma search_sound items prev rest g :
  search items prev rest = Some g →
  ∃ pre rest', rest = pre ++ rest' ∧
               match_here items [] (prev_after prev pre) rest' = Some g.
Proof.
  revert prev. induction rest as [|c rest IH]; intros prev; simpl.
  - destruct (match_here items [] prev []) eqn:Hm; [|done].
    intros [= ->]. by exists [], [].
  - destruct (match_here items [] prev (c :: rest)) eqn:Hm.
    + intros [= ->]. by exists [], (c :: rest).
    + intros (pre & rest' & -> & Hm')%IH. exists (c :: pre), rest'.
      by rewrite prev_after_cons.
Qed.

(** The end of the pattern, [\s*$], after group 1 was read as [group]. *)
Lemma line_tail_sound group prev rest g :
  match_here [GreedyStar Whitespace; LineEnd] group prev rest = Some g →
  g = group ∧
  ∃ ws rest', rest = ws ++ rest' ∧ Forall (λ c, isspace c = true) ws ∧
              at_line_end rest' = true.
Proof.
  simpl. intros (ws & rest' & -> & Hws & Hk)%greedy_star_sound.
  destruct (at_line_end rest') eqn:Hend; [|done].
  split; [congruence|]. by exists ws, rest'.
Qed.

Lemma line_tail_complete group prev ws rest :
  Forall (λ c, isspace c = true) ws → at_line_end rest = true →
  match_here [GreedyStar Whitespace; LineEnd] group prev (ws ++ rest)
    = Some group.
Proof.
  intros Hws Hend.
  assert (∀ prev l, at_line_end l = true →
    match_here [GreedyStar Whitespace; LineEnd] group prev l = Some group)
    as Hbase.
  { clear. intros prev l Hend. simpl. destruct l as [|c l]; simpl.
    - done.
    - simpl in Hend. destruct (isspace c); [|by rewrite Hend].
      destruct (greedy_star _ _ _ l) as [g|] eqn:Hin; [|by rewrite Hend].
      apply greedy_star_sound in Hin as (? & r & _ & _ & Hk).
      destruct (at_line_end r); congruence. }
  revert prev. induction Hws as [|c ws Hc Hws IH]; intros prev.
  { by apply Hbase. }
  specialize (IH (Some c)). simpl in *. rewrite Hc. by rewrite IH.
Qed.

(** Inside a line that does not end in whitespace, [\s*$] does not match. *)
Lemma line_tail_interior group prev cs tail :
  cs ≠ [] → newline ∉ cs →
  (∀ c, last cs = Some c → isspace c = false) →
  match_here [GreedyStar Whitespace; LineEnd] group prev (cs ++ tail) = None.
Proof.
  simpl. revert prev. induction cs as [|c cs IH]; intros prev Hne Hnl Hlast;
    [done|].
  apply not_elem_of_cons in Hnl as [Hc Hnl]. simpl.
  assert ((c =? newline)%N = false) as Hcn by by apply N.eqb_neq.
  destruct (isspace c) eqn:Hsp; [|by rewrite Hcn].
  destruct cs as [|c' cs].
  { rewrite (Hlast c) in Hsp; done. }
  rewrite IH; [by rewrite Hcn|done|done|].
  intros x Hx. apply Hlast. by rewrite last_cons, Hx.
Qed.

Lemma lazy_plus_exact cls k group cs tail g :
  cs ≠ [] →
  Forall (λ c, matches cls c = true) cs →
  (∀ cs1 cs2, cs = cs1 ++ cs2 → cs1 ≠ [] → cs2 ≠ [] →
     k (group ++ cs1) (last cs1) (cs2 ++ tail) = None) →
  k (group ++ cs) (last cs) tail = Some g →
  lazy_plus cls k group (cs ++ tail) = Some g.
Proof.
  intros Hne Hcs. revert group Hne.
  induction Hcs as [|c cs Hc Hcs IH]; intros group Hne Hint Hend; [done|].
  simpl. rewrite Hc. destruct cs as [|c' cs].
  { simpl in *. by rewrite Hend. }
  pose proof (Hint [c] (c' :: cs) eq_refl ltac:(done) ltac:(done)) as Hfirst.
  change (last [c]) with (Some c) in Hfirst. rewrite Hfirst.
  apply IH; [done| |].
  - intros cs1 cs2 Hsplit Hne1 Hne2. rewrite <-app_assoc.
    specialize (Hint (c :: cs1) cs2). rewrite last_cons in Hint.
    destruct (last cs1) eqn:Hl; [|apply last_None in Hl; congruence].
    apply Hint; [by rewrite Hsplit|done|done].
  - rewrite <-app_assoc. rewrite last_cons in Hend.
    by destruct (last (c' :: cs)) eqn:Hl; [|apply last_None in Hl].
Qed.

(** ** What [strip] leaves *)

Lemma lstrip_spec s :
  ∃ ws, s = ws ++ lstrip s ∧ Forall (λ c, isspace c = true) ws ∧
        ∀ c, head (lstrip s) = Some c → isspace c = false.
Proof.
  induction s as [|c s (ws & Hs & Hws & Hhd)]; simpl.
  - by exists [].
  - destruct (isspace c) eqn:Hc.
    + exists (c :: ws). split_and!; [by rewrite Hs at 1|by constructor|done].
    + exists []. split_and!; [done|constructor|]. simpl. congruence.
Qed.

Lemma lstrip_id s :
  (∀ c, head s = Some c → isspace c = false) → lstrip s = s.
Proof. destruct s as [|c s]; simpl; [done|]. intros H. by rewrite (H c). Qed.

Lemma lstrip_last s c : last (lstrip s) = Some c → last s = Some c.
Proof.
  destruct (lstrip_spec s) as (ws & Hs & _ & _). intros Hl. rewrite Hs.
  rewrite last_app, Hl. done.
Qed.

Lemma strip_spec g :
  strip g ⊆ g ∧
  (∀ c, head (strip g) = Some c → isspace c = false) ∧
  (∀ c, last (strip g) = Some c → isspace c = false).
Proof.
  unfold strip.
  destruct (lstrip_spec g) as (ws1 & Hg & _ & Hhd1).
  destruct (lstrip_spec (reverse (lstrip g))) as (ws2 & Hr & _ & Hhd2).
  split_and!.
  - intros c Hc. rewrite elem_of_reverse in Hc.
    assert (c ∈ reverse (lstrip g)) as Hc'.
    { rewrite Hr. apply elem_of_app. by right. }
    rewrite elem_of_reverse in Hc'. rewrite Hg. apply elem_of_app. by right.
  - intros c. rewrite head_reverse. intros Hl%lstrip_last.
    rewrite last_reverse in Hl. by apply Hhd1.
  - intros c. rewrite last_reverse. apply Hhd2.
Qed.

Lemma strip_id p :
  (∀ c, head p = Some c → isspace c = false) →
  (∀ c, last p = Some c → isspace c = false) →
  strip p = p.
Proof.
  intros Hhd Hl. unfold strip. rewrite (lstrip_id p) by done.
  rewrite lstrip_id; [apply reverse_involutive|].
  intros c. rewrite head_reverse. apply Hl.
Qed.

(** ** Reading the pattern item by item *)

Lemma file_path_pattern_items :
  file_path_pattern =
  [LineStart; GreedyStar Whitespace; One (Char 0x23); GreedyStar Whitespace;
   One (Char 0x46); One (Char 0x69); One (Char 0x6C); One (Char 0x65);
   One (Char 0x20); One (Char 0x70); One (Char 0x61); One (Char 0x74);
   One (Char 0x68); One (Char 0x3A);
   GreedyStar Whitespace; LazyPlusGroup AnyButNewline; GreedyStar Whitespace;
   LineEnd].
Proof. reflexivity. Qed.

Lemma literal_File_path :
  literal "File path:" =
  [0x46; 0x69; 0x6C; 0x65; 0x20; 0x70; 0x61; 0x74; 0x68; 0x3A]%N.
Proof. reflexivity. Qed.

Lemma match_here_LineStart items g prev rest r :
  match_here (LineStart :: items) g prev rest = Some r →
  at_line_start prev = true ∧ match_here items g prev rest = Some r.
Proof. simpl. by destruct (at_line_start prev). Qed.

Lemma match_here_One c items g prev rest r :
  match_here (One (Char c) :: items) g prev rest = Some r →
  ∃ rest', rest = c :: rest' ∧ match_here items g (Some c) rest' = Some r.
Proof.
  simpl. destruct rest as [|c' rest']; [done|].
  destruct (c' =? c)%N eqn:Hc; [|done]. apply N.eqb_eq in Hc as ->. eauto.
Qed.

Lemma match_here_GreedyStar cls items g prev rest r :
  match_here (GreedyStar cls :: items) g prev rest = Some r →
  ∃ cs rest', rest = cs ++ rest' ∧ Forall (λ c, matches cls c = true) cs ∧
              match_here items g (prev_after prev cs) rest' = Some r.
Proof. simpl. apply greedy_star_sound. Qed.

Lemma match_here_LazyPlusGroup cls items g prev rest r :
  match_here (LazyPlusGroup cls :: items) g prev rest = Some r →
  ∃ cs rest', cs ≠ [] ∧ rest = cs ++ rest' ∧
              Forall (λ c, matches cls c = true) cs ∧
              match_here items cs (last cs) rest' = Some r.
Proof. simpl. apply lazy_plus_sound. Qed.

(** A match of the whole pattern, taken apart. *)
Lemma file_path_match_sound prev rest g :
  match_here file_path_pattern [] prev rest = Some g →
  at_line_start prev = true ∧
  ∃ ws1 ws2 ws3 ws4 tail,
    rest = ws1 ++ [0x23%N] ++ ws2 ++ literal "File path:" ++ ws3 ++ g ++
           ws4 ++ tail ∧
    Forall (λ c, isspace c = true) ws1 ∧
    Forall (λ c, isspace c = true) ws2 ∧
    Forall (λ c, isspace c = true) ws3 ∧
    Forall (λ c, isspace c = true) ws4 ∧
    g ≠ [] ∧ (newline ∉ g) ∧ at_line_end tail = true.
Proof.
  rewrite file_path_pattern_items, literal_File_path.
  intros [Hstart H]%match_here_LineStart. split; [done|].
  apply match_here_GreedyStar in H as (ws1 & r1 & -> & Hws1 & H).
  apply match_here_One in H as (r2 & -> & H).
  apply match_here_GreedyStar in H as (ws2 & r3 & -> & Hws2 & H).
  do 10 (apply match_here_One in H as (? & -> & H)).
  apply match_here_GreedyStar in H as (ws3 & r4 & -> & Hws3 & H).
  apply match_here_LazyPlusGroup in H as (cs & r5 & Hne & -> & Hcs & H).
  apply line_tail_sound in H as (-> & ws4 & tail & -> & Hws4 & Hend).
  exists ws1, ws2, ws3, ws4, tail. split_and!; try done.
  intros Hnl. eapply Forall_forall in Hcs; [|exact Hnl]. done.
Qed.

Lemma step_star cls items g prev cs tail r :
  Forall (λ c, matches cls c = true) cs →
  (∀ c, head tail = Some c → matches cls c = false) →
  match_here items g (prev_after prev cs) tail = Some r →
  match_here (GreedyStar cls :: items) g prev (cs ++ tail) = Some r.
Proof. simpl. apply greedy_star_prefix. Qed.

Lemma step_one c items g prev rest r :
  match_here items g (Some c) rest = Some r →
  match_here (One (Char c) :: items) g prev (c :: rest) = Some r.
Proof. simpl. by rewrite N.eqb_refl. Qed.

(** The marked line is matched from its [#] on, with the path as group 1. *)
Lemma file_path_line_complete prev ws2 ws3 p ws4 tail :
  Forall (λ c, isspace c = true) ws2 →
  Forall (λ c, isspace c = true) ws3 →
  Forall (λ c, isspace c = true) ws4 →
  p ≠ [] → newline ∉ p →
  (∀ c, head p = Some c → isspace c = false) →
  (∀ c, last p = Some c → isspace c = false) →
  at_line_end tail = true →
  match_here (drop 2 file_path_pattern) [] prev
    (0x23%N :: ws2 ++ literal "File path:" ++ ws3 ++ p ++ ws4 ++ tail)
  = Some p.
Proof.
  intros Hws2 Hws3 Hws4 Hne Hnl Hhd Hlast Hend.
  rewrite file_path_pattern_items, literal_File_path. simpl drop.
  apply step_one.
  apply step_star; [done|by intros ? [= <-]|].
  do 10 apply step_one.
  apply step_star; [done| |].
  { intros c Hc. apply Hhd. by destruct p. }
  change (lazy_plus AnyButNewline
            (match_here [GreedyStar Whitespace; LineEnd]) []
            (p ++ ws4 ++ tail) = Some p).
  apply lazy_plus_exact; [done| | |].
  - apply Forall_forall. intros c Hc. simpl.
    apply negb_true_iff, N.eqb_neq. by intros ->.
  - intros cs1 cs2 -> Hne1 Hne2. apply line_tail_interior; [done| |].
    + intros Hin. apply Hnl, elem_of_app. by right.
    + intros c Hc. apply Hlast. rewrite last_app, Hc. done.
  - by apply line_tail_complete.
Qed.

Lemma file_path_pattern_start prev ws1 rest g :
  at_line_start prev = true →
  Forall (λ c, isspace c = true) ws1 →
  (∀ pv, match_here (drop 2 file_path_pattern) [] pv (0x23%N :: rest)
         = Some g) →
  match_here file_path_pattern [] prev (ws1 ++ 0x23%N :: rest) = Some g.
Proof.
  intros Hstart Hws1 Hline.
  rewrite file_path_pattern_items in *. simpl drop in Hline.
  change (match_here (LineStart :: ?items) ?gr ?pv ?r)
    with (if at_line_start pv then match_here items gr pv r else None).
  rewrite Hstart. apply step_star; [done|by intros ? [= <-]|]. apply Hline.
Qed.

Lemma first_occurrence {A} (x : A) l1 r1 l2 r2 :
  l1 ++ x :: r1 = l2 ++ x :: r2 → x ∉ l1 → x ∉ l2 → l1 = l2 ∧ r1 = r2.
Proof.
  revert l2. induction l1 as [|a l1 IH]; intros [|b l2] Heq H1 H2;
    simpl in Heq.
  - split; congruence.
  - injection Heq as -> _. by apply not_elem_of_cons in H2 as [? _].
  - injection Heq as -> _. by apply not_elem_of_cons in H1 as [? _].
  - injection Heq as -> Heq.
    apply not_elem_of_cons in H1 as [_ H1].
    apply not_elem_of_cons in H2 as [_ H2].
    by destruct (IH _ Heq H1 H2) as [-> ->].
Qed.

Lemma search_unfold items prev rest :
  search items prev rest =
  match match_here items [] prev rest with
  | Some g => Some g
  | None =>
      match rest with
      | c :: rest' => search items (Some c) rest'
      | [] => None
      end
  end.
Proof. by destruct rest. Qed.

(** Before the first [#] of the text nothing else can match. *)
Lemma search_before_marker pre ws1 line prev g :
  (0x23%N ∉ pre) →
  Forall (λ c, isspace c = true) ws1 →
  (∀ pv, match_here (drop 2 file_path_pattern) [] pv (0x23%N :: line)
         = Some g) →
  at_line_start (prev_after prev pre) = true →
  search file_path_pattern prev (pre ++ ws1 ++ 0x23%N :: line) = Some g.
Proof.
  intros Hpre Hws1 Hline. revert prev.
  induction pre as [|c pre IH]; intros prev Hstart.
  - rewrite search_unfold. simpl app.
    by rewrite (file_path_pattern_start prev ws1 line g).
  - apply not_elem_of_cons in Hpre as [Hc Hpre].
    rewrite prev_after_cons in Hstart.
    rewrite search_unfold. simpl app.
    destruct (match_here _ _ _ _) as [g'|] eqn:Hm; [|by apply IH].
    f_equal.
    destruct (file_path_match_sound _ _ _ Hm)
      as (Hstart' & ws1' & ws2 & ws3 & ws4 & tail & Heq & Hws1' & _).
    change (c :: pre ++ ws1 ++ 0x23%N :: line)
      with ((c :: pre) ++ ws1 ++ 0x23%N :: line) in *.
    rewrite app_assoc in Heq, Hm.
    apply (first_occurrence 0x23%N ((c :: pre) ++ ws1) line ws1') in Heq
      as [Hws Hrest].
    + rewrite (file_path_pattern_start prev _ line g) in Hm; [congruence|..].
      * done.
      * by rewrite Hws.
      * done.
    + apply not_elem_of_app. split; [by apply not_elem_of_cons|].
      intros Hin. eapply Forall_forall in Hws1; [|exact Hin]. done.
    + intros Hin. eapply Forall_forall in Hws1'; [|exact Hin]. done.
Qed.

(** ** The path in the connection file *)

Lemma prev_after_None pre : prev_after None pre = last pre.
Proof. unfold prev_after. by destruct (last pre). Qed.

Lemma parse_sound text p :
  _parse_db_path_from_connection_file text = Some p →
  ∃ pre ws1 ws2 ws3 g ws4 tail,
    text = pre ++ ws1 ++ [0x23%N] ++ ws2 ++ literal "File path:" ++ ws3 ++
           g ++ ws4 ++ tail ∧
    at_line_start (last pre) = true ∧
    Forall (λ c, isspace c = true) (ws1 ++ ws2 ++ ws3 ++ ws4) ∧
    g ≠ [] ∧ (newline ∉ g) ∧ at_line_end tail = true ∧ p = strip g.
Proof.
  unfold _parse_db_path_from_connection_file.
  destruct (search file_path_pattern None text) as [g|] eqn:Hs; [|done].
  intros [= <-].
  apply search_sound in Hs as (pre & rest & -> & Hm).
  apply file_path_match_sound in Hm
    as (Hstart & ws1 & ws2 & ws3 & ws4 & tail & -> & H1 & H2 & H3 & H4
        & Hne & Hnl & Hend).
  rewrite prev_after_None in Hstart.
  exists pre, ws1, ws2, ws3, g, ws4, tail.
  split_and!; try done. by rewrite !Forall_app.
Qed.

(** X17.  Whatever [_parse_db_path_from_connection_file] returns was
    written in the text: at the start of a line, after optional whitespace,
    a [#], optional whitespace and [File path:], it is what follows up to
    the end of a line, without the whitespace around it.  So the path has no
    newline inside and no whitespace at either end. *)
Theorem parsed_path_follows_marker text p :
  _parse_db_path_from_connection_file text = Some p →
  (∃ pre ws1 ws2 ws3 g ws4 tail,
     text = pre ++ ws1 ++ [0x23%N] ++ ws2 ++ literal "File path:" ++ ws3 ++
            g ++ ws4 ++ tail ∧
     at_line_start (last pre) = true ∧
     Forall (λ c, isspace c = true) (ws1 ++ ws2 ++ ws3 ++ ws4) ∧
     g ≠ [] ∧ (newline ∉ g) ∧ at_line_end tail = true ∧ p = strip g) ∧
  (newline ∉ p) ∧
  (∀ c, head p = Some c → isspace c = false) ∧
  (∀ c, last p = Some c → isspace c = false).
Proof.
  intros Hp. pose proof (parse_sound _ _ Hp)
    as (pre & ws1 & ws2 & ws3 & g & ws4 & tail & Htext & Hstart & Hws & Hne
        & Hnl & Hend & ->).
  destruct (strip_spec g) as (Hsub & Hhd & Hlast).
  split_and!; [|by intros ?%Hsub|done|done].
  by exists pre, ws1, ws2, ws3, g, ws4, tail.
Qed.

Lemma parsed_path_follows_marker_witness :
  newline ∉ literal "/home/app/database/myapp.db".
Proof.
  exact (proj1 (proj2 (parsed_path_follows_marker sample_connection_file
    (literal "/home/app/database/myapp.db") ltac:(vm_compute; reflexivity)))).
Defined.

(** X18.  A connection file whose first [#] opens a [File path:] line, set
    at the start of a line or after whitespace only, gives the path written
    there: whatever whitespace surrounds the marker and the path, and
    whatever follows the line, the result is the path itself, provided it
    is not empty, has no newline inside and no whitespace at either end. *)
Theorem marked_path_is_parsed pre ws1 ws2 ws3 p ws4 tail :
  (0x23%N ∉ pre) →
  at_line_start (last pre) = true →
  Forall (λ c, isspace c = true) (ws1 ++ ws2 ++ ws3 ++ ws4) →
  p ≠ [] → (newline ∉ p) →
  (∀ c, head p = Some c → isspace c = false) →
  (∀ c, last p = Some c → isspace c = false) →
  at_line_end tail = true →
  _parse_db_path_from_connection_file
    (pre ++ ws1 ++ [0x23%N] ++ ws2 ++ literal "File path:" ++ ws3 ++ p ++
     ws4 ++ tail)
  = Some p.
Proof.
  rewrite !Forall_app.
  intros Hpre Hstart (Hws1 & Hws2 & Hws3 & Hws4) Hne Hnl Hhd Hlast Hend.
  unfold _parse_db_path_from_connection_file.
  change ([0x23%N] ++ ?l) with (0x23%N :: l).
  rewrite (search_before_marker pre ws1 _ None p); simpl.
  - by rewrite strip_id.
  - done.
  - done.
  - intros pv. by apply (file_path_line_complete pv ws2 ws3 p ws4 tail).
  - by rewrite prev_after_None.
Qed.

Lemma marked_path_is_parsed_witness :
  _parse_db_path_from_connection_file
    (literal "notes" ++ [newline] ++ [0x20] ++ [0x23] ++ [0x09] ++
     literal "File path:" ++ [0x20; 0x20] ++ literal "/data/my notes.db" ++
     [0x20; 0x0D] ++ newline :: literal "# File path: /other.db")%N
  = Some (literal "/data/my notes.db").
Proof.
  rewrite (app_assoc (literal "notes") [newline]).
  apply (marked_path_is_parsed (literal "notes" ++ [newline])
           [0x20%N] [0x09%N] [0x20; 0x20]%N (literal "/data/my notes.db")
           [0x20; 0x0D]%N (newline :: literal "# File path: /other.db")).
  - vm_compute. intros H. by repeat (apply elem_of_cons in H as [H|H];
      [discriminate|]); apply elem_of_nil in H.
  - reflexivity.
  - by repeat constructor.
  - discriminate.
  - vm_compute. intros H. by repeat (apply elem_of_cons in H as [H|H];
      [discriminate|]); apply elem_of_nil in H.
  - by intros c [= <-].
  - by intros c [= <-].
  - reflexivity.
Defined.

(** ** Where the database is *)

Lemma parents_of_module root :
  parents 3 (root ++ ["notes_backend"; "src"; "api"; "db.py"]) = Some root.
Proof.
  unfold parents. rewrite length_app. simpl.
  rewrite decide_True by lia. f_equal.
  replace (length root + 4 - 4)%nat with (length root) by lia.
  by rewrite take_app_length.
Qed.

Lemma truthy_nonempty s : truthy s = true ↔ s ≠ [].
Proof.
  unfold truthy. rewrite negb_true_iff, bool_decide_eq_false. done.
Qed.

Lemma parse_without_marker text :
  (0x23%N ∉ text) → _parse_db_path_from_connection_file text = None.
Proof.
  intros Hno. destruct (_parse_db_path_from_connection_file text) as [p|] eqn:Hp;
    [|done].
  apply parse_sound in Hp as (pre & ws1 & ws2 & ws3 & g & ws4 & tail & -> & _).
  exfalso. apply Hno. rewrite !elem_of_app. right; right; left.
  apply list_elem_of_singleton. done.
Qed.

(** X19.  [get_db_path] never returns an empty path.  What it returns is
    the value of [SQLITE_DB] or a path parsed from a file named
    [database/db_connection.txt]; it raises [RuntimeError] only when
    [SQLITE_DB] is unset or empty, and [IndexError] only when the module
    file lies fewer than four levels deep. *)
Theorem get_db_path_outcome env :
  match get_db_path env with
  | DbPath p =>
      p ≠ [] ∧
      (environ env !! "SQLITE_DB" = Some p ∨
       ∃ repo_root text,
         files env !! (repo_root ++ ["database"; "db_connection.txt"])
           = Some (Some text) ∧
         _parse_db_path_from_connection_file text = Some p)
  | Raises RuntimeError =>
      environ env !! "SQLITE_DB" = None ∨ environ env !! "SQLITE_DB" = Some []
  | Raises IndexError => (length (module_file env) ≤ 3)%nat
  end.
Proof.
  unfold get_db_path, _repo_root_from_this_file, parents.
  case_decide as Hdepth; [|lia].
  unfold path_from_connection_file.
  destruct (files env !! _) as [[text|]|] eqn:Hfile;
    [destruct (_parse_db_path_from_connection_file text) as [p|] eqn:Hp;
       [destruct (truthy p) eqn:Ht|]|..].
  { split; [by apply truthy_nonempty|]. right. eauto. }
  all: destruct (environ env !! "SQLITE_DB") as [v|] eqn:Hv; [|by left].
  all: destruct (truthy v) eqn:Htv;
    [split; [by apply truthy_nonempty|by left]|].
  all: right; f_equal; destruct v; [done|discriminate].
Qed.

(** X20.  For the module at [<root>/notes_backend/src/api/db.py], the file
    consulted is [<root>/database/db_connection.txt], and a non-empty path
    parsed from it wins over [SQLITE_DB], whatever that is set to. *)
Theorem connection_file_wins env root text p :
  module_file env = root ++ ["notes_backend"; "src"; "api"; "db.py"] →
  files env !! (root ++ ["database"; "db_connection.txt"]) = Some (Some text) →
  _parse_db_path_from_connection_file text = Some p →
  p ≠ [] →
  get_db_path env = DbPath p.
Proof.
  intros Hmod Hfile Hp Hne.
  unfold get_db_path, _repo_root_from_this_file.
  rewrite Hmod, parents_of_module. unfold path_from_connection_file.
  rewrite Hfile, Hp. by rewrite (proj2 (truthy_nonempty p)).
Qed.

Lemma connection_file_wins_witness :
  get_db_path sample_environment =
  DbPath (literal "/home/app/database/myapp.db").
Proof.
  apply (connection_file_wins sample_environment ["home"; "app"]
           sample_connection_file).
  - reflexivity.
  - vm_compute. reflexivity.
  - vm_compute. reflexivity.
  - discriminate.
Defined.

(** X21.  When the connection file is missing, cannot be read, or has no
    [#] in it, [get_db_path] falls back on [SQLITE_DB]: it returns its value
    if that is set and not empty, and raises [RuntimeError] otherwise; the
    failure to read the file is swallowed. *)
Theorem falls_back_on_SQLITE_DB env root :
  module_file env = root ++ ["notes_backend"; "src"; "api"; "db.py"] →
  files env !! (root ++ ["database"; "db_connection.txt"]) = None ∨
  files env !! (root ++ ["database"; "db_connection.txt"]) = Some None ∨
  (∃ text, files env !! (root ++ ["database"; "db_connection.txt"])
             = Some (Some text) ∧ 0x23%N ∉ text) →
  get_db_path env =
  match environ env !! "SQLITE_DB" with
  | Some [] | None => Raises RuntimeError
  | Some env_path => DbPath env_path
  end.
Proof.
  intros Hmod Hfile.
  unfold get_db_path, _repo_root_from_this_file.
  rewrite Hmod, parents_of_module. unfold path_from_connection_file.
  assert (match files env !! (root ++ ["database"; "db_connection.txt"]) with
          | Some (Some text) =>
              match _parse_db_path_from_connection_file text with
              | Some parsed => if truthy parsed then Some parsed else None
              | None => None
              end
          | _ => None
          end = None) as ->.
  { destruct Hfile as [->|[->|(text & -> & Hno)]]; [done|done|].
    by rewrite parse_without_marker. }
  destruct (environ env !! "SQLITE_DB") as [[|c v]|]; done.
Qed.

Lemma falls_back_on_SQLITE_DB_witness :
  get_db_path {| module_file := ["srv"; "notes_backend"; "src"; "api"; "db.py"];
                 files := {[ ["srv"; "database"; "db_connection.txt"] := None ]};
                 environ := {[ "SQLITE_DB" := literal "/var/notes.db" ]} |}
  = DbPath (literal "/var/notes.db").
Proof.
  rewrite (falls_back_on_SQLITE_DB _ ["srv"]).
  - vm_compute. reflexivity.
  - reflexivity.
  - right; left. vm_compute. reflexivity.
Defined.

(** ** Listing by id *)

Lemma StronglySorted_sublist {A} (R : relation A) l1 l2 :
  l1 `sublist_of` l2 → StronglySorted R l2 → StronglySorted R l1.
Proof.
  intros Hsub Hs. revert l1 Hsub.
  induction Hs as [|x l Hs IH Hx]; intros l1 Hsub.
  - apply sublist_nil_r in Hsub as ->. constructor.
  - apply sublist_cons_r in Hsub as [Hsub|(l1' & -> & Hsub)]; [by apply IH|].
    constructor; [by apply IH|].
    eapply Forall_forall. intros y Hy.
    eapply Forall_forall in Hx; [exact Hx|]. by eapply sublist_subseteq.
Qed.

Lemma StronglySorted_strict {A B} (R S : relation A) (f : A → B) l :
  (∀ a b, R a b → f a ≠ f b → S a b) → NoDup (f <$> l) →
  StronglySorted R l → StronglySorted S l.
Proof.
  intros HR Hnd Hs. induction Hs as [|x l Hs IH Hx]; [constructor|].
  rewrite fmap_cons in Hnd. apply NoDup_cons in Hnd as [Hx' Hnd].
  constructor; [by apply IH|].
  apply Forall_forall. intros y Hy.
  eapply Forall_forall in Hx; [|exact Hy]. apply HR; [done|].
  intros Heq. apply Hx'. rewrite Heq. apply list_elem_of_fmap. eauto.
Qed.

Lemma order_by_id_le dir (a b : Row) :
  order_by ColId dir a b →
  match dir with ASC => a.1 ≤ b.1 | DESC => b.1 ≤ a.1 end.
Proof.
  unfold order_by. destruct dir; simpl.
  - destruct (Z.compare_spec a.1 b.1); intros; first [done | lia].
  - destruct (Z.compare_spec b.1 a.1); intros; first [done | lia].
Qed.

(** X22.  Sorted by id there are no ties: whatever the limit and offset,
    the ids of a page listed with [sort_by = "id"] strictly increase when
    the order is [asc] and strictly decrease when it is anything else. *)
Theorem list_notes_by_id_strict limit offset sort_order w page :
  (list_notes limit offset "id" sort_order w).2 = Ok page →
  if decide (lower sort_order = "asc")
  then StronglySorted (λ a b, NoteOut.id a < NoteOut.id b)
         (PaginatedNotes.items page)
  else StronglySorted (λ a b, NoteOut.id b < NoteOut.id a)
         (PaginatedNotes.items page).
Proof.
  rewrite (list_notes_result _ _ _ _ ColId) by reflexivity.
  intros [= <-]. simpl.
  set (dir := if decide (lower sort_order = "asc") then ASC else DESC).
  destruct (select_page_rows ColId dir limit offset (database w)) as [Hnd _].
  assert (StronglySorted (order_by ColId dir)
            (select_page ColId dir limit offset (database w))) as Hs.
  { eapply StronglySorted_sublist; [apply limit_offset_sublist|].
    apply (sorted_active_rows ColId dir (database w)). }
  subst dir. case_decide.
  - eapply (StronglySorted_fmap _ (λ a b : Row, a.1 < b.1)); [done|].
    eapply (StronglySorted_strict _ _ fst); [|done|done].
    intros a b Hab%(order_by_id_le ASC) Hne. simpl in *. lia.
  - eapply (StronglySorted_fmap _ (λ a b : Row, b.1 < a.1)); [done|].
    eapply (StronglySorted_strict _ _ fst); [|done|done].
    intros a b Hab%(order_by_id_le DESC) Hne. simpl in *. lia.
Qed.

Lemma list_notes_by_id_strict_witness :
  ∃ page, (list_notes 20 0 "id" "desc" one_deleted).2 = Ok page ∧
    NoteOut.id <$> PaginatedNotes.items page = [3; 2] ∧
    StronglySorted (λ a b, NoteOut.id b < NoteOut.id a)
      (PaginatedNotes.items page).
Proof.
  assert (∃ page, (list_notes 20 0 "id" "desc" one_deleted).2 = Ok page ∧
                  NoteOut.id <$> PaginatedNotes.items page = [3; 2])
    as (page & Hok & Hids) by (eexists; split; vm_compute; reflexivity).
  exists page. split_and!; [done|done|].
  exact (list_notes_by_id_strict 20 0 "desc" one_deleted page Hok).
Defined.
